(** * svg-paths-to-pixi: [parsePathData] of src/lib/svg-path-to-pixi.js

    A shallow embedding of the SVG path parser and the properties its
    specification states about it.

    - JavaScript numbers are IEEE-754 binary64 values: Rocq's primitive
      [float], with its own [+], [-], [*] and [=?] (so [NaN] differs from
      itself and [0 =? -0]).
    - JavaScript strings are [string]s; a one-character string such as a
      command letter is a [string] of length one.
    - Arrays of numbers are [list float]; reading past the end gives
      [undefined], modelled by [None].
    - The three mutable variables of the closure ([lastPoint], [lastControl],
      [firstPoint]) are the fields of a [State] threaded through every
      pipeline; a raised exception is the [Throw] result.
    - The PIXI graphics object is the list of the draw calls made on it. *)

From Stdlib Require Import List String Ascii ZArith Bool Lia Arith.
From Stdlib Require Import Floats.
Import ListNotations.

Local Open Scope list_scope.
Local Open Scope string_scope.

(** ** JavaScript values *)

Module JS.

(** The exceptions the function can raise. *)
Inductive error : Type :=
| ReferenceError
| TypeError.

Inductive result (A : Type) : Type :=
| Ok (a : A)
| Throw (e : error).
Arguments Ok {A} a.
Arguments Throw {A} e.

(** [ToNumber] of an array read: [undefined] becomes [NaN]. *)
Definition ToNumber (v : option float) : float :=
  match v with
  | Some x => x
  | None => nan
  end.

(** [ToBoolean] of a number: [+0], [-0] and [NaN] are falsy. *)
Definition ToBoolean (x : float) : bool :=
  negb (PrimFloat.eqb x 0 || is_nan x).

(** [a === b] on numbers. *)
Definition strict_eq (a b : float) : bool := PrimFloat.eqb a b.

(** [arr[i]]. *)
Definition get (arr : list float) (i : nat) : option float := nth_error arr i.

(** [arr[i] = v]: replaces slot [i], or extends the array up to it.  The slots
    skipped by a write past the end are holes, which read as [undefined]; they
    are filled with [NaN] here.  No array of this program is written more
    than one slot past its end unless it is empty, and [lastPoint], the only
    array written, never is. *)
Fixpoint set (arr : list float) (i : nat) (v : float) : list float :=
  match i, arr with
  | O, [] => [v]
  | O, _ :: tl => v :: tl
  | S j, [] => nan :: set [] j v
  | S j, x :: tl => x :: set tl j v
  end.

(** A relative index of [Array.prototype.slice]: negative counts from the
    end, and the result is clamped to [0, len]. *)
Definition rel_index (len : nat) (k : Z) : nat :=
  if (k <? 0)%Z then Z.to_nat (Z.max (Z.of_nat len + k) 0)
  else Nat.min (Z.to_nat k) len.

(** [arr.slice(start, end)]; [end] omitted is [None]. *)
Definition slice {A : Type} (arr : list A) (start : Z) (end_ : option Z) : list A :=
  let len := List.length arr in
  let k := rel_index len start in
  let final := match end_ with
               | Some e => rel_index len e
               | None => len
               end in
  firstn (final - k) (skipn k arr).

(** [arr.map((val, idx) => f val idx)]. *)
Fixpoint mapi_from {A B : Type} (f : A -> nat -> B) (idx : nat) (arr : list A) : list B :=
  match arr with
  | [] => []
  | val :: tl => f val idx :: mapi_from f (S idx) tl
  end.

Definition mapi {A B : Type} (f : A -> nat -> B) (arr : list A) : list B :=
  mapi_from f 0 arr.

(** [str.charAt(0)]: the empty string when [str] is empty. *)
Definition charAt0 (str : string) : string :=
  match str with
  | EmptyString => EmptyString
  | String c _ => String c EmptyString
  end.

Definition is_upper (c : ascii) : bool :=
  (Nat.leb 65 (nat_of_ascii c)) && (Nat.leb (nat_of_ascii c) 90).

Definition is_lower (c : ascii) : bool :=
  (Nat.leb 97 (nat_of_ascii c)) && (Nat.leb (nat_of_ascii c) 122).

Definition upper_ascii (c : ascii) : ascii :=
  if is_lower c then ascii_of_nat (nat_of_ascii c - 32) else c.

(** [str.toUpperCase()] on ASCII text. *)
Fixpoint toUpperCase (str : string) : string :=
  match str with
  | EmptyString => EmptyString
  | String c tl => String (upper_ascii c) (toUpperCase tl)
  end.

End JS.
Export JS.

(** ** The two regular expressions

    Both are matched with the [g] flag through [String.prototype.match], which
    returns the array of all matches scanning left to right, or [null] when
    there is none.  Neither pattern has an alternative after a greedy
    quantifier that could succeed where the greedy choice failed, so the
    backtracking matcher takes the longest run at every quantifier. *)

Module Regex.

Definition is_digit (c : ascii) : bool :=
  (Nat.leb 48 (nat_of_ascii c)) && (Nat.leb (nat_of_ascii c) 57).

(** The class [[\d\.]]. *)
Definition is_digit_or_dot (c : ascii) : bool :=
  is_digit c || Ascii.eqb c ".".

(** The class [[, ]]. *)
Definition is_separator (c : ascii) : bool :=
  Ascii.eqb c "," || Ascii.eqb c " ".

(** The class [[A-DF-Z]] under the [i] flag: every ASCII letter but [E], [e]. *)
Definition is_command_letter (c : ascii) : bool :=
  let u := nat_of_ascii (upper_ascii c) in
  ((Nat.leb 65 u) && (Nat.leb u 68)) || ((Nat.leb 70 u) && (Nat.leb u 90)).

(** The longest prefix of [s] whose characters satisfy [p], and the rest. *)
Fixpoint span (p : ascii -> bool) (s : string) : string * string :=
  match s with
  | EmptyString => (EmptyString, EmptyString)
  | String c tl =>
      if p c then let (m, rest) := span p tl in (String c m, rest)
      else (EmptyString, s)
  end.

(** An optional single character of class [p]. *)
Definition optional (p : ascii -> bool) (s : string) : string * string :=
  match s with
  | String c tl => if p c then (String c EmptyString, tl) else (EmptyString, s)
  | EmptyString => (EmptyString, s)
  end.

(** One repetition [-?[\d\.]+[, ]?] of the argument group of [commandRegex].
    It fails when no digit or dot follows the optional sign. *)
Definition argument (s : string) : option (string * string) :=
  let (sign, s1) := optional (Ascii.eqb "-") s in
  let (digits, s2) := span is_digit_or_dot s1 in
  match digits with
  | EmptyString => None
  | _ =>
      let (sep, s3) := optional is_separator s2 in
      Some (sign ++ digits ++ sep, s3)
  end.

(** [(?:-?[\d\.]+[, ]?)*]; every repetition consumes a character, so
    [String.length s] repetitions are enough. *)
Fixpoint arguments (fuel : nat) (s : string) : string * string :=
  match fuel with
  | O => (EmptyString, s)
  | S fuel' =>
      match argument s with
      | None => (EmptyString, s)
      | Some (m, rest) =>
          let (ms, rest') := arguments fuel' rest in (m ++ ms, rest')
      end
  end.

(** [/[A-DF-Z] ?(?:-?[\d\.]+[, ]?)*/i] anchored at the start of [s]: the
    match and what follows it. *)
Definition commandRegex_at (s : string) : option (string * string) :=
  match s with
  | EmptyString => None
  | String c tl =>
      if is_command_letter c then
        let (sp, s1) := optional (Ascii.eqb " ") tl in
        let (args, s2) := arguments (String.length s1) s1 in
        Some (String c (sp ++ args), s2)
      else None
  end.

(** [/-?\d+(?:\.\d+)?/] anchored at the start of [s]. *)
Definition coordsRegex_at (s : string) : option (string * string) :=
  let (sign, s1) := optional (Ascii.eqb "-") s in
  let (int, s2) := span is_digit s1 in
  match int with
  | EmptyString => None
  | _ =>
      match s2 with
      | String "."%char s3 =>
          let (frac, s4) := span is_digit s3 in
          match frac with
          | EmptyString => Some (sign ++ int, s2)
          | _ => Some (sign ++ int ++ "." ++ frac, s4)
          end
      | _ => Some (sign ++ int, s2)
      end
  end.

(** All the matches of an anchored pattern, left to right: after a match the
    scan resumes behind it, after a failure one character further.  Every
    step consumes a character, so [String.length s] steps are enough. *)
Fixpoint scan (re_at : string -> option (string * string)) (fuel : nat) (s : string)
  : list string :=
  match fuel with
  | O => []
  | S fuel' =>
      match s with
      | EmptyString => []
      | String _ tl =>
          match re_at s with
          | Some (m, rest) => m :: scan re_at fuel' rest
          | None => scan re_at fuel' tl
          end
      end
  end.

(** [str.match(re)] for a global pattern: [null] ([None]) when nothing matches. *)
Definition match_g (re_at : string -> option (string * string)) (str : string)
  : option (list string) :=
  match scan re_at (String.length str) str with
  | [] => None
  | ms => Some ms
  end.

End Regex.
Export Regex.

(** ** [Number] on the tokens of [coordsRegex] *)

Module Numeric.

Definition digit_value (c : ascii) : Z := Z.of_nat (nat_of_ascii c - 48).

Fixpoint digits_value (acc : Z) (s : string) : Z :=
  match s with
  | EmptyString => acc
  | String c tl => digits_value (10 * acc + digit_value c)%Z tl
  end.

(** The binary64 value nearest to [m / 10^k], ties to even, with the sign
    [neg]: a correctly rounded division of the two integers. *)
Definition decimal (neg : bool) (m : Z) (k : nat) : float :=
  let num := match m with
             | Zpos p => S754_finite neg p 0
             | _ => S754_zero neg
             end in
  let den := S754_finite false (Z.to_pos (10 ^ Z.of_nat k)) 0 in
  SF2Prim (SFdiv prec emax num den).

(** [Number(tok)] for a token [-?\d+(\.\d+)?], the only strings
    [getCommandObj] converts: the nearest double to the decimal it writes. *)
Definition Number (tok : string) : float :=
  let (sign, s1) := optional (Ascii.eqb "-") tok in
  let (int, s2) := span is_digit s1 in
  let frac := match s2 with
              | String "."%char s3 => fst (span is_digit s3)
              | _ => EmptyString
              end in
  decimal (match sign with EmptyString => false | _ => true end)
          (digits_value 0 (int ++ frac)) (String.length frac).

End Numeric.
Export Numeric.

(** ** The helpers imported from ./utils *)

Module Utils.

(** The groups of [arr], at most [fuel] of them. *)
Fixpoint chunk_fuel {A : Type} (fuel : nat) (arr : list A) (size : nat) : list (list A) :=
  match fuel with
  | O => []
  | S fuel' =>
      match arr with
      | [] => []
      | _ => firstn size arr :: chunk_fuel fuel' (skipn size arr) size
      end
  end.

(** Modelled from the spec: [chunk] of ./utils, which is not among the
    sources.  "The arguments are partitioned into consecutive groups of that
    arity, each group producing one operation, processed strictly in order":
    on a list whose length [size] divides, [chunk arr size] is the list of
    its consecutive groups of [size] elements.  The spec names no group for
    what is left when [size] does not divide the length, and the helper that
    decides it is not at hand: here those elements make a last, shorter
    group, and a size of [0] gives no group. *)
Definition chunk {A : Type} (arr : list A) (size : nat) : list (list A) :=
  match size with
  | O => []
  | _ => chunk_fuel (List.length arr) arr size
  end.

End Utils.
Export Utils.

(** ** The parser *)

(** The state of one call: the three [let] variables of [parsePathData]. *)
Record State : Type := mkState {
  lastPoint : list float;
  lastControl : option (list float);
  firstPoint : option (list float)
}.

(** The state after the declarations: [lastPoint = [0, 0]], the other two
    [undefined]. *)
Definition initial : State :=
  {| lastPoint := [0%float; 0%float]; lastControl := None; firstPoint := None |}.

(** A computation that reads and writes the state and may throw. *)
Definition Eff (A : Type) : Type := State -> result (A * State).

Definition ret {A : Type} (a : A) : Eff A := fun st => Ok (a, st).

Definition throw {A : Type} (e : error) : Eff A := fun _ => Throw e.

Definition bind {A B : Type} (m : Eff A) (k : A -> Eff B) : Eff B :=
  fun st =>
    match m st with
    | Ok (a, st') => k a st'
    | Throw e => Throw e
    end.

Notation "x <- m ;; k" := (bind m (fun x => k))
  (at level 61, m at next level, right associativity).

(** Modelled from the spec: [pipe] of ./utils, which is not among the
    sources.  "Stateful pipeline as composed pure functions": [pipe f g]
    applies [f] and hands its result to [g]; the functions of a pipeline run
    left to right, and [pipe(f, g, h)] is [f >=> g >=> h]. *)
Definition pipe {A B C : Type} (f : A -> Eff B) (g : B -> Eff C) : A -> Eff C :=
  fun a => bind (f a) g.

Infix ">=>" := pipe (at level 62, left associativity).

(** [seq.map(f)] for an [f] that touches the state: elements in order. *)
Fixpoint mapM {A B : Type} (f : A -> Eff B) (seq : list A) : Eff (list B) :=
  match seq with
  | [] => ret []
  | a :: tl => b <- f a ;; bs <- mapM f tl ;; ret (b :: bs)
  end.

(** The [DrawCommand] object passed between the functions. *)
Record DrawCommand : Type := mkCommand {
  commandChar : string;
  coords : list float
}.

(** The drawing entry points of the graphics object. *)
Inductive DrawFn : Type :=
| moveTo
| lineTo
| quadraticCurveTo
| bezierCurveTo
| closePath.

(** One call [graphics[fn](...args)]. *)
Record Call : Type := mkCall {
  fn : DrawFn;
  args : list float
}.

(** The graphics object, as the calls made on it so far. *)
Definition Graphics : Type := list Call.

(** [numbOfArgsByCommand[c]]; [undefined] for any other key. *)
Definition numbOfArgsByCommand (c : string) : option nat :=
  if String.eqb c "M" then Some 2
  else if String.eqb c "L" then Some 2
  else if String.eqb c "T" then Some 2
  else if String.eqb c "Q" then Some 4
  else if String.eqb c "S" then Some 4
  else if String.eqb c "C" then Some 6
  else None.

(** [pixiDrawFns[c]]; [undefined] for any other key. *)
Definition pixiDrawFns (c : string) : option DrawFn :=
  if String.eqb c "M" then Some moveTo
  else if String.eqb c "L" then Some lineTo
  else if String.eqb c "Q" then Some quadraticCurveTo
  else if String.eqb c "C" then Some bezierCurveTo
  else None.

(** [a1.every((v, i) => v === a2[i])]. *)
Fixpoint every_eq (a1 : list float) (i : nat) (a2 : list float) : bool :=
  match a1 with
  | [] => true
  | v :: tl =>
      match get a2 i with
      | Some w => strict_eq v w && every_eq tl (S i) a2
      | None => false
      end
  end.

Definition isEqual (a1 a2 : list float) : bool :=
  Nat.eqb (List.length a1) (List.length a2) && every_eq a1 0 a2.

Definition storeFirstPoint (cmd : DrawCommand) : Eff DrawCommand :=
  fun st =>
    Ok (cmd, {| lastPoint := lastPoint st;
                lastControl := lastControl st;
                firstPoint := Some (slice (coords cmd) 0 (Some 2%Z)) |}).

Definition storeLastPoint (cmd : DrawCommand) : Eff DrawCommand :=
  fun st =>
    Ok (cmd, {| lastPoint := slice (coords cmd) (-2) None;
                lastControl := lastControl st;
                firstPoint := firstPoint st |}).

Definition storeLastControl (cmd : DrawCommand) : Eff DrawCommand :=
  fun st =>
    Ok (cmd, {| lastPoint := lastPoint st;
                lastControl := Some (slice (coords cmd) (-4) (Some (-2)%Z));
                firstPoint := firstPoint st |}).

Definition getCommand (segment : string) : string := charAt0 segment.

(** [segment.match(coordsRegex)] is [null] for a segment without a number,
    and [null.map] throws. *)
Definition getCommandObj (commandChar : string) (segment : string) : Eff DrawCommand :=
  match match_g coordsRegex_at segment with
  | None => throw TypeError
  | Some toks => ret {| commandChar := commandChar; coords := map Number toks |}
  end.

(** [/^[HV]/.test(c)]. *)
Definition test_HV (c : string) : bool :=
  match c with
  | String a _ => Ascii.eqb a "H" || Ascii.eqb a "V"
  | EmptyString => false
  end.

(** [/^H/i.test(c)]. *)
Definition test_H_i (c : string) : bool :=
  match c with
  | String a _ => Ascii.eqb a "H" || Ascii.eqb a "h"
  | EmptyString => false
  end.

(** One step of the [reduce] of [toLine]:
    [list.concat((basePoint[axis] = arg) && basePoint)].  The assignment is
    made first and its value is [arg]; [&&] yields [basePoint] when [arg] is
    truthy and [arg] itself otherwise, and [concat] spreads an array but
    appends a number as one element. *)
Definition toLine_step (axis : nat) (acc : list float * list float) (arg : float)
  : list float * list float :=
  let (list, basePoint) := acc in
  let basePoint' := set basePoint axis arg in
  ((list ++ (if ToBoolean arg then basePoint' else [arg]))%list, basePoint').

(** For an absolute command [basePoint] is the array [lastPoint] itself, so
    the writes to it are writes to [lastPoint]. *)
Definition toLine (cmd : DrawCommand) : Eff DrawCommand :=
  fun st =>
    let isAbsolute := test_HV (commandChar cmd) in
    let axis := if test_H_i (commandChar cmd) then 0 else 1 in
    let basePoint := if isAbsolute then lastPoint st else [0%float; 0%float] in
    let (list, basePoint') := fold_left (toLine_step axis) (coords cmd) ([], basePoint) in
    Ok ({| commandChar := if isAbsolute then "L" else "l"; coords := list |},
        if isAbsolute
        then {| lastPoint := basePoint';
                lastControl := lastControl st;
                firstPoint := firstPoint st |}
        else st).

Definition toAbsolute (cmd : DrawCommand) : Eff DrawCommand :=
  fun st =>
    Ok ({| commandChar := toUpperCase (commandChar cmd);
           coords := mapi (fun val idx =>
                             (val + ToNumber (get (lastPoint st) (idx mod 2)))%float)
                          (coords cmd) |}, st).

(** [lastControl[idx]] throws when [lastControl] is [undefined]; the callback
    runs once per element of [lastPoint]. *)
Definition prependReflexedControlPoint (cmd : DrawCommand) : Eff DrawCommand :=
  fun st =>
    let commandChar' := if String.eqb (commandChar cmd) "T" then "Q" else "C" in
    match lastControl st, lastPoint st with
    | None, _ :: _ => Throw TypeError
    | None, [] => Ok ({| commandChar := commandChar'; coords := coords cmd |}, st)
    | Some control, point =>
        Ok ({| commandChar := commandChar';
               coords := (mapi (fun _ idx =>
                                  (2 * ToNumber (get point idx)
                                   - ToNumber (get control idx))%float) point
                          ++ coords cmd)%list |}, st)
    end.

(** [chunk(coords, numbOfArgsByCommand[commandChar])]; every pipeline calls it
    with a letter of the table (an [undefined] size is taken as [0]). *)
Definition splitArgsSequence (cmd : DrawCommand) : Eff (list DrawCommand) :=
  let size := match numbOfArgsByCommand (commandChar cmd) with
              | Some n => n
              | None => 0
              end in
  ret (map (fun args => {| commandChar := commandChar cmd; coords := args |})
           (chunk (coords cmd) size)).

Definition fixMSequence (commands : list DrawCommand) : Eff (list DrawCommand) :=
  ret (mapi (fun cmd idx =>
               {| commandChar := if Nat.ltb 0 idx then "L" else "M";
                  coords := coords cmd |}) commands).

(** [coords] is [firstPoint]; were it [undefined], the [coords.slice] of the
    next stage would throw. *)
Definition lineToFirstPoint (_ : unit) : Eff DrawCommand :=
  fun st =>
    match firstPoint st with
    | Some p => Ok ({| commandChar := "L"; coords := p |}, st)
    | None => Throw TypeError
    end.

(** How a run of statements ends: normally, or by an uncaught exception. *)
Inductive completion : Type :=
| Normal
| Abrupt (e : error).

(** [commands.forEach(({commandChar, coords}) =>
      graphics[pixiDrawFns[commandChar]](...coords))]: the calls made before
    a failing one stay made. *)
Fixpoint callCommands (commands : list DrawCommand) (graphics : Graphics)
  : Graphics * completion :=
  match commands with
  | [] => (graphics, Normal)
  | cmd :: tl =>
      match pixiDrawFns (commandChar cmd) with
      | Some f => callCommands tl (graphics ++ [{| fn := f; args := coords cmd |}])%list
      | None => (graphics, Abrupt TypeError)
      end
  end.

(** *** The parsing pipelines, named as in the source *)

Module Pipeline.

Definition L : DrawCommand -> Eff (list DrawCommand) :=
  storeLastPoint >=> splitArgsSequence.

Definition M : DrawCommand -> Eff (list DrawCommand) :=
  storeFirstPoint >=> L >=> fixMSequence.

Definition Q : DrawCommand -> Eff (list DrawCommand) :=
  storeLastPoint >=> storeLastControl >=> splitArgsSequence.

Definition T : DrawCommand -> Eff (list DrawCommand) :=
  splitArgsSequence >=>
  (fun seq => mapM (prependReflexedControlPoint >=> storeLastPoint >=> storeLastControl) seq).

Definition V : DrawCommand -> Eff (list DrawCommand) :=
  toLine >=> L.

Definition Z : unit -> Eff (list DrawCommand) :=
  lineToFirstPoint >=> L.

Definition l : DrawCommand -> Eff (list DrawCommand) :=
  toAbsolute >=> L.

Definition m : DrawCommand -> Eff (list DrawCommand) :=
  toAbsolute >=> M.

Definition q : DrawCommand -> Eff (list DrawCommand) :=
  toAbsolute >=> Q.

Definition t : DrawCommand -> Eff (list DrawCommand) :=
  toAbsolute >=> T.

Definition v : DrawCommand -> Eff (list DrawCommand) :=
  toLine >=> l.

(** [init(cmdPipe)]: the pipeline fed with the command object of the segment. *)
Definition init (cmdPipe : DrawCommand -> Eff (list DrawCommand))
  : string -> string -> Eff (list DrawCommand) :=
  fun commandChar segment => bind (getCommandObj commandChar segment) cmdPipe.

(** [isEqual(firstPoint, lastPoint)] reads [firstPoint.length], which throws
    while [firstPoint] is [undefined]. *)
Definition CloseIfOpen : string -> string -> Eff (list DrawCommand) :=
  fun _ _ st =>
    match firstPoint st with
    | None => Throw TypeError
    | Some first =>
        if negb (isEqual first (lastPoint st)) then Z tt st else Ok ([], st)
    end.

(** The table [parse]; a letter without an entry gives [undefined]. *)
Definition parse (command : string) : option (string -> string -> Eff (list DrawCommand)) :=
  if String.eqb command "M" then Some (init M)
  else if String.eqb command "L" then Some (init L)
  else if String.eqb command "Q" then Some (init Q)
  else if String.eqb command "T" then Some (init T)
  else if String.eqb command "V" then Some (init V)
  else if String.eqb command "Z" then Some CloseIfOpen
  else if String.eqb command "m" then Some (init m)
  else if String.eqb command "l" then Some (init l)
  else if String.eqb command "q" then Some (init q)
  else if String.eqb command "t" then Some (init t)
  else if String.eqb command "v" then Some (init v)
  else if String.eqb command "C" then Some (init Q)
  else if String.eqb command "S" then Some (init T)
  else if String.eqb command "H" then Some (init V)
  else if String.eqb command "c" then Some (init q)
  else if String.eqb command "s" then Some (init t)
  else if String.eqb command "h" then Some (init v)
  else if String.eqb command "z" then Some CloseIfOpen
  else None.

End Pipeline.

(** *** Calling the transformation *)

(** One turn of the [forEach] over the segments: [parse[command]] is called
    (calling [undefined] throws), then [callCommands] on what it returns. *)
Definition segment_step (segment : string) (st : State) (graphics : Graphics)
  : Graphics * result State :=
  let command := getCommand segment in
  match Pipeline.parse command with
  | None => (graphics, Throw TypeError)
  | Some entry =>
      match entry command segment st with
      | Throw e => (graphics, Throw e)
      | Ok (commands, st') =>
          match callCommands commands graphics with
          | (graphics', Normal) => (graphics', Ok st')
          | (graphics', Abrupt e) => (graphics', Throw e)
          end
      end
  end.

Fixpoint forEach_segment (segments : list string) (st : State) (graphics : Graphics)
  : Graphics * completion :=
  match segments with
  | [] => (graphics, Normal)
  | segment :: tl =>
      match segment_step segment st graphics with
      | (graphics', Ok st') => forEach_segment tl st' graphics'
      | (graphics', Throw e) => (graphics', Abrupt e)
      end
  end.

(** Lines 27 to 228: the declarations of the state and of the pipelines, then
    [d.match(commandRegex).forEach(...)] and [return graphics].  [forEach] on
    the [null] of a string without a match throws. *)
Definition run (d : string) (graphics : Graphics) : Graphics * completion :=
  match match_g commandRegex_at d with
  | None => (graphics, Abrupt TypeError)
  | Some segments => forEach_segment segments initial graphics
  end.

(** The names bound where line 26 is evaluated: the parameters and the
    [const] and [let] declarations of the function, and the imports and the
    function of the module.  The global object of a JavaScript host has no
    property [cd]. *)
Definition bound_names : list string :=
  [ "d"; "graphics"; "commandRegex"; "coordsRegex"; "numbOfArgsByCommand";
    "pixiDrawFns"; "isEqual"; "lastPoint"; "lastControl"; "firstPoint";
    "storeFirstPoint"; "storeLastPoint"; "storeLastControl"; "getCommand";
    "getCommandObj"; "toLine"; "toAbsolute"; "prependReflexedControlPoint";
    "splitArgsSequence"; "fixMSequence"; "lineToFirstPoint"; "callCommands";
    "L"; "M"; "Q"; "T"; "V"; "Z"; "l"; "m"; "q"; "t"; "v"; "init";
    "CloseIfOpen"; "parse"; "chunk"; "pipe"; "tap"; "parsePathData" ].

(** Evaluating an identifier expression: a name that resolves to no binding
    throws a [ReferenceError]. *)
Definition resolve (name : string) : result unit :=
  if existsb (String.eqb name) bound_names then Ok tt else Throw ReferenceError.

(** [parsePathData(d, graphics)]: the four constant declarations, the
    expression statement [cd] of line 26, then the rest of the body. *)
Definition parsePathData (d : string) (graphics : Graphics) : Graphics * completion :=
  match resolve "cd" with
  | Throw e => (graphics, Abrupt e)
  | Ok _ => run d graphics
  end.

(** ** The vocabulary of the specification *)



(** The letter of an elliptical arc. *)
Definition is_arc_char (c : ascii) : bool := Ascii.eqb c "A" || Ascii.eqb c "a".

(** The input contains the letter [A] or [a]. *)
Fixpoint contains_arc (d : string) : bool :=
  match d with
  | EmptyString => false
  | String c tl => is_arc_char c || contains_arc tl
  end.



(** The segments of [d], none when [match] gives [null]. *)
Definition segments_of (d : string) : list string :=
  scan commandRegex_at (String.length d) d.

(** A segment is exact when its numeric tokens fill whole repetition groups:
    for [H], [h], [V], [v] (one value per group) every value is truthy, that
    is neither zero nor [NaN]; for the letters of [numbOfArgsByCommand] the
    number of tokens is a multiple of the table's entry.  Segments without
    tokens and letters outside both sets carry no condition. *)
Definition exact_segment (segment : string) : bool :=
  let c := toUpperCase (getCommand segment) in
  match match_g coordsRegex_at segment with
  | None => true
  | Some toks =>
      if String.eqb c "H" || String.eqb c "V"
      then forallb (fun tok => ToBoolean (Number tok)) toks
      else match numbOfArgsByCommand c with
           | Some n => Nat.eqb (List.length toks mod n) 0
           | None => true
           end
  end.

(** Every segment of the input is exact. *)
Definition exact_input (d : string) : bool := forallb exact_segment (segments_of d).

(** The spec's relative-to-absolute rule: the current point [(px, py)] is
    added to every [(x, y)] pair of the argument list. *)
Fixpoint add_point (px py : float) (coords : list float) : list float :=
  match coords with
  | x :: y :: tl => (x + px)%float :: (y + py)%float :: add_point px py tl
  | [x] => [(x + px)%float]
  | [] => []
  end.

(** The spec's reflection rule for a sequence of [T] groups: each group
    [(x, y)] becomes a quadratic curve whose control point is
    [2 * currentPoint - lastControlPoint]; the end point and that control
    point are the current point and last control point of the next group. *)
Fixpoint smooth_quadratic (px py cx cy : float) (groups : list (float * float))
  : list DrawCommand :=
  match groups with
  | [] => []
  | (x, y) :: tl =>
      let rx := (2 * px - cx)%float in
      let ry := (2 * py - cy)%float in
      {| commandChar := "Q"; coords := [rx; ry; x; y] |} :: smooth_quadratic x y rx ry tl
  end.

(** The same for a sequence of [S] groups [(c2x, c2y, x, y)]: the second
    control point of a group is the last control point of the next. *)
Fixpoint smooth_cubic (px py cx cy : float) (groups : list (float * float * float * float))
  : list DrawCommand :=
  match groups with
  | [] => []
  | (c2x, c2y, x, y) :: tl =>
      let rx := (2 * px - cx)%float in
      let ry := (2 * py - cy)%float in
      {| commandChar := "C"; coords := [rx; ry; c2x; c2y; x; y] |}
      :: smooth_cubic x y c2x c2y tl
  end.

(** The current point and last control point a sequence of [T] groups
    leaves behind. *)
Fixpoint after_quadratic (px py cx cy : float) (groups : list (float * float))
  : list float * list float :=
  match groups with
  | [] => ([px; py], [cx; cy])
  | (x, y) :: tl => after_quadratic x y (2 * px - cx)%float (2 * py - cy)%float tl
  end.

Fixpoint after_cubic (px py cx cy : float) (groups : list (float * float * float * float))
  : list float * list float :=
  match groups with
  | [] => ([px; py], [cx; cy])
  | (c2x, c2y, x, y) :: tl => after_cubic x y c2x c2y tl
  end.

Definition flatten2 (groups : list (float * float)) : list float :=
  flat_map (fun g => let '(x, y) := g in [x; y]) groups.

Definition flatten4 (groups : list (float * float * float * float)) : list float :=
  flat_map (fun g => let '(c2x, c2y, x, y) := g in [c2x; c2y; x; y]) groups.

(** What [toLine] contributes for one argument of an [H] or [V] segment read
    from the base point [(x, y)]: the argument alone when it is zero, the
    point with the argument on its axis otherwise. *)
Definition line_part (axis : nat) (x y arg : float) : list float :=
  if PrimFloat.eqb arg 0 then [arg]
  else match axis with
       | O => [arg; y]
       | _ => [x; arg]
       end.

(** The coordinate list of a whole segment: each argument moves the base
    point along the axis, zero or not. *)
Fixpoint line_coords (axis : nat) (x y : float) (arguments : list float) : list float :=
  match arguments with
  | [] => []
  | arg :: tl =>
      (line_part axis x y arg
       ++ match axis with
          | O => line_coords axis arg y tl
          | _ => line_coords axis x arg tl
          end)%list
  end.

(** The base point after the arguments. *)
Fixpoint line_base (axis : nat) (x y : float) (arguments : list float) : list float :=
  match arguments with
  | [] => [x; y]
  | arg :: tl =>
      match axis with
      | O => line_base axis arg y tl
      | _ => line_base axis x arg tl
      end
  end.

(** The stage every group of a [T] or [S] segment goes through: the function
    mapped over the groups in [Pipeline.T]. *)
Definition smooth_stage : DrawCommand -> Eff DrawCommand :=
  prependReflexedControlPoint >=> storeLastPoint >=> storeLastControl.

(** A pair, and a group of an [S] segment, moved by [(px, py)]. *)
Definition shift2 (px py : float) (g : float * float) : float * float :=
  ((fst g + px)%float, (snd g + py)%float).

Definition shift4 (px py : float) (g : float * float * float * float)
  : float * float * float * float :=
  let '(c2x, c2y, x, y) := g in
  ((c2x + px)%float, (c2y + py)%float, (x + px)%float, (y + py)%float).


(** The invariant of the state on exact input: the current point is a point,
    and so are the last control point and the start of the subpath once they
    are set. *)
Definition point_shaped (st : State) : Prop :=
  List.length (lastPoint st) = 2
  /\ (forall control, lastControl st = Some control -> List.length control = 2)
  /\ (forall first, firstPoint st = Some first -> List.length first = 2).



(** ** Vocabulary of the further properties *)

(** The command letters of the input, in order: the characters that
    [commandRegex] takes as the head of a segment. *)
Fixpoint letters (d : string) : list ascii :=
  match d with
  | EmptyString => []
  | String c tl => if is_command_letter c then c :: letters tl else letters tl
  end.

(** The one-character string of a letter. *)
Definition letter_string (c : ascii) : string := String c EmptyString.

(** The letter has an entry in [parse]. *)
Definition supported (c : string) : bool :=
  match Pipeline.parse c with
  | Some _ => true
  | None => false
  end.

(** A command that [callCommands] can draw: its letter is a key of
    [pixiDrawFns]. *)
Definition drawable (cmd : DrawCommand) : Prop :=
  In (commandChar cmd) ["M"; "L"; "Q"; "C"].

(** What a pipeline returns, when it returns, can be drawn. *)
Definition drawable_result (r : result (list DrawCommand * State)) : Prop :=
  forall (commands : list DrawCommand) (st' : State),
    r = Ok (commands, st') -> Forall drawable commands.

(** The letters of the close command. *)
Definition is_close (c : string) : bool := String.eqb c "Z" || String.eqb c "z".

(** The letters of the smooth curves. *)
Definition is_smooth (c : string) : bool :=
  String.eqb c "T" || String.eqb c "t" || String.eqb c "S" || String.eqb c "s".

(** The four ways a segment makes the loop fail: its letter has no entry; it
    closes a subpath that no MoveTo has started; it is no close command and
    has no number; it is a smooth curve and no curve has set the control
    point. *)
Definition step_fails (segment : string) (st : State) : bool :=
  let c := getCommand segment in
  if negb (supported c) then true
  else if is_close c then
    match firstPoint st with
    | None => true
    | Some _ => false
    end
  else
    match match_g coordsRegex_at segment with
    | None => true
    | Some _ =>
        is_smooth c && match lastControl st with
                       | None => true
                       | Some _ => false
                       end
    end.

(** The letters of the MoveTo command. *)
Definition is_move (c : string) : bool := String.eqb c "M" || String.eqb c "m".

(** The letters of the full curves. *)
Definition is_curve (c : string) : bool :=
  String.eqb c "Q" || String.eqb c "q" || String.eqb c "C" || String.eqb c "c".

(** The arrays of the state hold at most a point: [lastPoint] one or two
    numbers, [firstPoint] and [lastControl] no more than that once set. *)
Definition bounded_state (st : State) : Prop :=
  (1 <= List.length (lastPoint st) <= 2)
  /\ (forall first, firstPoint st = Some first -> 1 <= List.length first <= 2)
  /\ (forall control, lastControl st = Some control -> List.length control <= 2).

(** What a pipeline returns, when it returns, leaves the state bounded. *)
Definition bounded_result (r : result (list DrawCommand * State)) : Prop :=
  forall (commands : list DrawCommand) (st' : State),
    r = Ok (commands, st') -> bounded_state st'.

(** The coordinates of a list of [C] groups. *)
Definition flatten6 (groups : list (float * float * float * float * float * float))
  : list float :=
  flat_map (fun g => let '(c1x, c1y, c2x, c2y, x, y) := g in [c1x; c1y; c2x; c2y; x; y])
           groups.

(** The argument list made absolute when [lastPoint] holds a single number
    [px]: the odd-indexed values meet [undefined] and become [NaN]. *)
Fixpoint add_point_without_y (px : float) (arr : list float) : list float :=
  match arr with
  | x :: _ :: tl => (x + px)%float :: nan :: add_point_without_y px tl
  | [x] => [(x + px)%float]
  | [] => []
  end.

(** A variable that has been assigned. *)
Definition is_set {A : Type} (o : option A) : bool :=
  match o with
  | Some _ => true
  | None => false
  end.

(** The segment holds a numeric token. *)
Definition has_number (segment : string) : bool :=
  is_set (match_g coordsRegex_at segment).

(** The segments the loop gets through, read off their letters alone:
    [started] tells that a MoveTo has been seen, [curved] that a curve has.
    Every letter must have an entry; a close command needs a MoveTo before
    it; any other command needs a number, and a smooth curve needs a curve
    before it. *)
Fixpoint accepted (started curved : bool) (segments : list string) : bool :=
  match segments with
  | [] => true
  | segment :: tl =>
      let c := getCommand segment in
      supported c
      && (if is_close c then started
          else has_number segment && (if is_smooth c then curved else true))
      && accepted (started || is_move c) (curved || is_curve c) tl
  end.

(** The inputs the loop gets through: at least one segment, all accepted. *)
Definition parses (d : string) : bool :=
  match segments_of d with
  | [] => false
  | segments => accepted false false segments
  end.

(** * Properties *)

(** ** The stray identifier of line 26 *)

(** C1: every call of [parsePathData] throws a [ReferenceError] at the
    identifier [cd], before the segments are matched: whatever the input and
    the graphics object, no drawing call is added to it. *)
Theorem parsePathData_throws_at_cd :
  forall (d : string) (graphics : Graphics),
    parsePathData d graphics = (graphics, Abrupt ReferenceError).
Proof.
  intros d graphics. unfold parsePathData.
  replace (resolve "cd") with (@Throw unit ReferenceError) by (vm_compute; reflexivity).
  reflexivity.
Qed.

(** ** Arrays: [chunk] and [slice] *)

Section Arrays.

Context {A : Type}.

Lemma chunk_fuel_enough (size : nat) :
  size <> 0 ->
  forall (f1 f2 : nat) (arr : list A),
    List.length arr <= f1 -> List.length arr <= f2 ->
    chunk_fuel f1 arr size = chunk_fuel f2 arr size.
Proof.
  intros Hsize f1. induction f1 as [|f1 IH]; intros f2 arr H1 H2.
  - destruct arr; [|simpl in H1; lia]. destruct f2; reflexivity.
  - destruct arr as [|a tl]; [destruct f2; reflexivity|].
    destruct f2 as [|f2]; [simpl in H2; lia|].
    cbn [chunk_fuel]. f_equal.
    apply IH; rewrite length_skipn; cbn [List.length] in *; lia.
Qed.


Lemma chunk_cons (size : nat) (a : A) (tl : list A) :
  size <> 0 ->
  chunk (a :: tl) size = firstn size (a :: tl) :: chunk (skipn size (a :: tl)) size.
Proof.
  intros Hsize. unfold chunk. destruct size as [|n]; [congruence|].
  cbn [List.length chunk_fuel]. f_equal.
  apply chunk_fuel_enough; [congruence| |apply Nat.le_refl].
  cbn [skipn]. rewrite length_skipn. lia.
Qed.





End Arrays.

(** ** Relative to absolute *)

Lemma add_point_cons (tl : list float) :
  forall (v px py : float),
    add_point px py (v :: tl) = (v + px)%float :: add_point py px tl.
Proof.
  induction tl as [|y tl IH]; intros v px py.
  - reflexivity.
  - cbn [add_point]. f_equal. rewrite <- IH. reflexivity.
Qed.

Lemma mod2_succ (idx : nat) :
  (idx mod 2 = 0 -> S idx mod 2 = 1) /\ (idx mod 2 = 1 -> S idx mod 2 = 0).
Proof.
  pose proof (Nat.div_mod_eq idx 2). pose proof (Nat.div_mod_eq (S idx) 2).
  pose proof (Nat.mod_upper_bound (S idx) 2). lia.
Qed.

Lemma mapi_from_add_point (px py : float) (coords : list float) :
  forall idx : nat,
    (idx mod 2 = 0 ->
     mapi_from (fun val i => (val + ToNumber (get [px; py] (i mod 2)))%float) idx coords
     = add_point px py coords) /\
    (idx mod 2 = 1 ->
     mapi_from (fun val i => (val + ToNumber (get [px; py] (i mod 2)))%float) idx coords
     = add_point py px coords).
Proof.
  induction coords as [|v tl IH]; intros idx.
  - split; reflexivity.
  - destruct (IH (S idx)) as [IHeven IHodd].
    split; intros Hidx; cbn [mapi_from]; rewrite Hidx, add_point_cons; cbn [get nth_error ToNumber];
      f_equal; [apply IHodd | apply IHeven]; apply mod2_succ; assumption.
Qed.

(** [toAbsolute] adds the current point to every pair and leaves the state
    alone. *)
Lemma toAbsolute_add_point (cmd : DrawCommand) (st : State) (px py : float) :
  lastPoint st = [px; py] ->
  toAbsolute cmd st
  = Ok ({| commandChar := toUpperCase (commandChar cmd);
           coords := add_point px py (coords cmd) |}, st).
Proof.
  intros Hlast. unfold toAbsolute, mapi. rewrite Hlast.
  destruct (mapi_from_add_point px py (coords cmd) 0) as [H _].
  rewrite H by reflexivity. reflexivity.
Qed.

(** ** Emission *)

Lemma callCommands_app (cmds1 cmds2 : list DrawCommand) :
  forall graphics : Graphics,
    callCommands (cmds1 ++ cmds2) graphics
    = match callCommands cmds1 graphics with
      | (graphics', Normal) => callCommands cmds2 graphics'
      | stopped => stopped
      end.
Proof.
  induction cmds1 as [|cmd tl IH]; intros graphics; cbn [callCommands app].
  - reflexivity.
  - destruct (pixiDrawFns (commandChar cmd)); [apply IH | reflexivity].
Qed.

(** Commands of one letter of [pixiDrawFns] are all emitted, in order. *)
Lemma callCommands_map (c : string) (f : DrawFn) (groups : list (list float)) :
  pixiDrawFns c = Some f ->
  forall graphics : Graphics,
    callCommands (map (mkCommand c) groups) graphics
    = ((graphics ++ map (mkCall f) groups)%list, Normal).
Proof.
  intros Hc. induction groups as [|g tl IH]; intros graphics; cbn [callCommands map].
  - rewrite app_nil_r. reflexivity.
  - cbn [commandChar coords]. rewrite Hc, IH, <- app_assoc. reflexivity.
Qed.

Lemma fixMSequence_tail (commands : list DrawCommand) :
  forall idx : nat,
    mapi_from (fun cmd i => {| commandChar := if Nat.ltb 0 i then "L" else "M";
                               coords := coords cmd |}) (S idx) commands
    = map (fun cmd => {| commandChar := "L"; coords := coords cmd |}) commands.
Proof.
  induction commands as [|cmd tl IH]; intros idx; cbn [mapi_from map].
  - reflexivity.
  - rewrite IH. reflexivity.
Qed.

(** ** The MoveTo repetition rule *)

Lemma M_expands (x y : float) (rest : list float) (st : State) :
  Pipeline.M {| commandChar := "M"; coords := x :: y :: rest |} st
  = Ok ({| commandChar := "M"; coords := [x; y] |} :: map (mkCommand "L") (chunk rest 2),
        {| lastPoint := slice (x :: y :: rest) (-2) None;
           lastControl := lastControl st;
           firstPoint := Some [x; y] |}).
Proof.
  unfold Pipeline.M, Pipeline.L, pipe, bind, storeFirstPoint, storeLastPoint,
    splitArgsSequence, fixMSequence, ret, mapi.
  cbn [commandChar coords numbOfArgsByCommand String.eqb Ascii.eqb Bool.eqb lastPoint
       lastControl firstPoint].
  rewrite chunk_cons by discriminate.
  cbn [map firstn skipn mapi_from Nat.ltb Nat.leb coords].
  rewrite fixMSequence_tail, map_map. reflexivity.
Qed.

(** C6: in an [M] or [m] segment with several coordinate groups the first
    group becomes the one MoveTo and every later group a LineTo, and the
    first group, made absolute for [m], is stored as the start of the
    subpath; ["M 0 0 5 5 10 10"] gives MoveTo(0,0), LineTo(5,5),
    LineTo(10,10) and leaves the subpath start at (0,0). *)
Theorem moveTo_repetition_rule :
  forall (x y : float) (rest : list float) (px py : float) (st : State)
         (graphics : Graphics),
    lastPoint st = [px; py] ->
    (exists cmds st',
        Pipeline.M {| commandChar := "M"; coords := x :: y :: rest |} st = Ok (cmds, st')
        /\ firstPoint st' = Some [x; y]
        /\ callCommands cmds graphics
           = ((graphics ++ mkCall moveTo [x; y] :: map (mkCall lineTo) (chunk rest 2))%list,
              Normal))
    /\ (exists cmds st',
        Pipeline.m {| commandChar := "m"; coords := x :: y :: rest |} st = Ok (cmds, st')
        /\ firstPoint st' = Some [(x + px)%float; (y + py)%float]
        /\ callCommands cmds graphics
           = ((graphics ++ mkCall moveTo [(x + px)%float; (y + py)%float]
                        :: map (mkCall lineTo) (chunk (add_point px py rest) 2))%list,
              Normal))
    /\ Pipeline.init Pipeline.M "M" "M 0 0 5 5 10 10" initial
       = Ok ([ {| commandChar := "M"; coords := [0; 0]%float |};
               {| commandChar := "L"; coords := [5; 5]%float |};
               {| commandChar := "L"; coords := [10; 10]%float |} ],
             {| lastPoint := [10; 10]%float;
                lastControl := None;
                firstPoint := Some [0; 0]%float |})
    /\ run "M 0 0 5 5 10 10" []
       = ([ mkCall moveTo [0; 0]%float; mkCall lineTo [5; 5]%float;
            mkCall lineTo [10; 10]%float ], Normal).
Proof.
  intros x y rest px py st graphics Hlast.
  assert (Hemit : forall a b tl g,
             callCommands ({| commandChar := "M"; coords := [a; b] |}
                           :: map (mkCommand "L") (chunk tl 2)) g
             = ((g ++ mkCall moveTo [a; b] :: map (mkCall lineTo) (chunk tl 2))%list, Normal)).
  { intros a b tl g. cbn [callCommands commandChar coords pixiDrawFns String.eqb Ascii.eqb Bool.eqb].
    rewrite (callCommands_map "L" lineTo) by reflexivity.
    rewrite <- app_assoc. reflexivity. }
  split; [|split; [|split]].
  - eexists _, _. split; [apply M_expands|]. split; [reflexivity | apply Hemit].
  - unfold Pipeline.m, pipe, bind. rewrite (toAbsolute_add_point _ st px py Hlast).
    cbn [commandChar coords toUpperCase add_point].
    change (String (upper_ascii "m") "") with "M".
    eexists _, _. split; [apply M_expands|]. split; [reflexivity | apply Hemit].
  - vm_compute. reflexivity.
  - vm_compute. reflexivity.
Qed.

Lemma moveTo_repetition_rule_witness :
  lastPoint initial = [0%float; 0%float]
  /\ exists cmds st',
      Pipeline.m {| commandChar := "m"; coords := [1; 2; 3; 4]%float |} initial = Ok (cmds, st')
      /\ firstPoint st' = Some [(1 + 0)%float; (2 + 0)%float]
      /\ callCommands cmds []
         = (([] ++ mkCall moveTo [(1 + 0)%float; (2 + 0)%float]
                :: map (mkCall lineTo) (chunk (add_point 0 0 [3; 4]%float) 2))%list,
            Normal).
Proof.
  split; [reflexivity|].
  exact (proj1 (proj2 (moveTo_repetition_rule 1 2 [3; 4]%float 0 0 initial []
                         (eq_refl : lastPoint initial = [0%float; 0%float])))).
Defined.

(** ** The entries of the relative letters *)



(** ** Reflection of the control point *)

Lemma chunk_flatten2 (groups : list (float * float)) :
  chunk (flatten2 groups) 2 = map (fun g => [fst g; snd g]) groups.
Proof.
  induction groups as [|[x y] tl IH].
  - reflexivity.
  - change (flatten2 ((x, y) :: tl)) with (x :: y :: flatten2 tl).
    rewrite chunk_cons by discriminate. cbn [firstn skipn map fst snd].
    rewrite IH. reflexivity.
Qed.

Lemma chunk_flatten4 (groups : list (float * float * float * float)) :
  chunk (flatten4 groups) 4
  = map (fun g => let '(c2x, c2y, x, y) := g in [c2x; c2y; x; y]) groups.
Proof.
  induction groups as [|[[[c2x c2y] x] y] tl IH].
  - reflexivity.
  - change (flatten4 ((c2x, c2y, x, y) :: tl)) with (c2x :: c2y :: x :: y :: flatten4 tl).
    rewrite chunk_cons by discriminate. cbn [firstn skipn map].
    rewrite IH. reflexivity.
Qed.

Lemma add_point_flatten2 (px py : float) (groups : list (float * float)) :
  add_point px py (flatten2 groups)
  = flatten2 (map (shift2 px py) groups).
Proof.
  induction groups as [|[x y] tl IH].
  - reflexivity.
  - change (flatten2 ((x, y) :: tl)) with (x :: y :: flatten2 tl).
    cbn [add_point map]. rewrite IH. reflexivity.
Qed.

Lemma add_point_flatten4 (px py : float) (groups : list (float * float * float * float)) :
  add_point px py (flatten4 groups) = flatten4 (map (shift4 px py) groups).
Proof.
  induction groups as [|[[[c2x c2y] x] y] tl IH].
  - reflexivity.
  - change (flatten4 ((c2x, c2y, x, y) :: tl)) with (c2x :: c2y :: x :: y :: flatten4 tl).
    cbn [add_point map]. rewrite IH. reflexivity.
Qed.

Lemma mapM_smooth_quadratic (groups : list (float * float)) :
  forall (st : State) (px py cx cy : float),
    lastPoint st = [px; py] ->
    lastControl st = Some [cx; cy] ->
    mapM smooth_stage (map (fun g => {| commandChar := "T"; coords := [fst g; snd g] |}) groups) st
    = Ok (smooth_quadratic px py cx cy groups,
          {| lastPoint := fst (after_quadratic px py cx cy groups);
             lastControl := Some (snd (after_quadratic px py cx cy groups));
             firstPoint := firstPoint st |}).
Proof.
  induction groups as [|[x y] tl IH]; intros st px py cx cy Hlast Hcontrol.
  - cbn [map mapM ret smooth_quadratic after_quadratic fst snd].
    destruct st as [lp lc fp]. cbn in Hlast, Hcontrol. subst. reflexivity.
  - cbn [map mapM fst snd]. unfold bind at 1.
    unfold smooth_stage at 1, pipe, bind, prependReflexedControlPoint.
    rewrite Hlast, Hcontrol.
    cbn [storeLastPoint storeLastControl coords commandChar mapi mapi_from get nth_error
         ToNumber app String.eqb Ascii.eqb Bool.eqb lastPoint lastControl firstPoint].
    unfold bind.
    rewrite (IH _ x y (2 * px - cx)%float (2 * py - cy)%float) by reflexivity.
    reflexivity.
Qed.

Lemma mapM_smooth_cubic (groups : list (float * float * float * float)) :
  forall (st : State) (px py cx cy : float),
    lastPoint st = [px; py] ->
    lastControl st = Some [cx; cy] ->
    mapM smooth_stage
         (map (fun g => {| commandChar := "S";
                           coords := let '(c2x, c2y, x, y) := g in [c2x; c2y; x; y] |}) groups) st
    = Ok (smooth_cubic px py cx cy groups,
          {| lastPoint := fst (after_cubic px py cx cy groups);
             lastControl := Some (snd (after_cubic px py cx cy groups));
             firstPoint := firstPoint st |}).
Proof.
  induction groups as [|[[[c2x c2y] x] y] tl IH]; intros st px py cx cy Hlast Hcontrol.
  - cbn [map mapM ret smooth_cubic after_cubic fst snd].
    destruct st as [lp lc fp]. cbn in Hlast, Hcontrol. subst. reflexivity.
  - cbn [map mapM]. unfold bind at 1.
    unfold smooth_stage at 1, pipe, bind, prependReflexedControlPoint.
    rewrite Hlast, Hcontrol.
    cbn [storeLastPoint storeLastControl coords commandChar mapi mapi_from get nth_error
         ToNumber app String.eqb Ascii.eqb Bool.eqb lastPoint lastControl firstPoint].
    unfold bind.
    rewrite (IH _ x y c2x c2y) by reflexivity.
    reflexivity.
Qed.

Lemma T_quadratic (groups : list (float * float)) (st : State) (px py cx cy : float) :
  lastPoint st = [px; py] ->
  lastControl st = Some [cx; cy] ->
  Pipeline.T {| commandChar := "T"; coords := flatten2 groups |} st
  = Ok (smooth_quadratic px py cx cy groups,
        {| lastPoint := fst (after_quadratic px py cx cy groups);
           lastControl := Some (snd (after_quadratic px py cx cy groups));
           firstPoint := firstPoint st |}).
Proof.
  intros Hlast Hcontrol.
  unfold Pipeline.T, pipe, bind, splitArgsSequence, ret.
  cbn [commandChar coords numbOfArgsByCommand String.eqb Ascii.eqb Bool.eqb].
  rewrite chunk_flatten2, map_map.
  apply mapM_smooth_quadratic; assumption.
Qed.

Lemma T_cubic (groups : list (float * float * float * float)) (st : State)
      (px py cx cy : float) :
  lastPoint st = [px; py] ->
  lastControl st = Some [cx; cy] ->
  Pipeline.T {| commandChar := "S"; coords := flatten4 groups |} st
  = Ok (smooth_cubic px py cx cy groups,
        {| lastPoint := fst (after_cubic px py cx cy groups);
           lastControl := Some (snd (after_cubic px py cx cy groups));
           firstPoint := firstPoint st |}).
Proof.
  intros Hlast Hcontrol.
  unfold Pipeline.T, pipe, bind, splitArgsSequence, ret.
  cbn [commandChar coords numbOfArgsByCommand String.eqb Ascii.eqb Bool.eqb].
  rewrite chunk_flatten4, map_map.
  apply mapM_smooth_cubic; assumption.
Qed.

(** C5: for [T], [t], [S] and [s] the leading control point of every group
    is [2 * currentPoint - lastControlPoint] on each axis, computed anew for
    each group of a segment from the current point and the control point the
    group before it left; from the current point (10,10) and the last
    control point (15,5), ["T 20 20"] gives QuadraticCurveTo(5,15,20,20). *)
Theorem smooth_reflection_per_group :
  forall (quads : list (float * float)) (cubics : list (float * float * float * float))
         (st : State) (px py cx cy : float),
    lastPoint st = [px; py] ->
    lastControl st = Some [cx; cy] ->
    Pipeline.T {| commandChar := "T"; coords := flatten2 quads |} st
    = Ok (smooth_quadratic px py cx cy quads,
          {| lastPoint := fst (after_quadratic px py cx cy quads);
             lastControl := Some (snd (after_quadratic px py cx cy quads));
             firstPoint := firstPoint st |})
    /\ Pipeline.T {| commandChar := "S"; coords := flatten4 cubics |} st
       = Ok (smooth_cubic px py cx cy cubics,
             {| lastPoint := fst (after_cubic px py cx cy cubics);
                lastControl := Some (snd (after_cubic px py cx cy cubics));
                firstPoint := firstPoint st |})
    /\ (exists st',
           Pipeline.t {| commandChar := "t"; coords := flatten2 quads |} st
           = Ok (smooth_quadratic px py cx cy (map (shift2 px py) quads), st'))
    /\ (exists st',
           Pipeline.t {| commandChar := "s"; coords := flatten4 cubics |} st
           = Ok (smooth_cubic px py cx cy (map (shift4 px py) cubics), st'))
    /\ segment_step "T 20 20"
         {| lastPoint := [10; 10]%float; lastControl := Some [15; 5]%float;
            firstPoint := None |} []
       = ([mkCall quadraticCurveTo [5; 15; 20; 20]%float],
          Ok {| lastPoint := [20; 20]%float; lastControl := Some [5; 15]%float;
                firstPoint := None |}).
Proof.
  intros quads cubics st px py cx cy Hlast Hcontrol.
  split; [apply T_quadratic; assumption|].
  split; [apply T_cubic; assumption|].
  split; [|split].
  - unfold Pipeline.t, pipe, bind. rewrite (toAbsolute_add_point _ st px py Hlast).
    cbn [commandChar coords toUpperCase]. change (String (upper_ascii "t") "") with "T".
    rewrite add_point_flatten2, (T_quadratic _ st px py cx cy Hlast Hcontrol).
    eexists. reflexivity.
  - unfold Pipeline.t, pipe, bind. rewrite (toAbsolute_add_point _ st px py Hlast).
    cbn [commandChar coords toUpperCase]. change (String (upper_ascii "s") "") with "S".
    rewrite add_point_flatten4, (T_cubic _ st px py cx cy Hlast Hcontrol).
    eexists. reflexivity.
  - vm_compute. reflexivity.
Qed.

Lemma smooth_reflection_per_group_witness :
  lastPoint {| lastPoint := [10; 10]%float; lastControl := Some [15; 5]%float;
               firstPoint := None |} = [10; 10]%float
  /\ lastControl {| lastPoint := [10; 10]%float; lastControl := Some [15; 5]%float;
                    firstPoint := None |} = Some [15; 5]%float
  /\ Pipeline.T {| commandChar := "T"; coords := flatten2 [(20, 20); (30, 30)]%float |}
       {| lastPoint := [10; 10]%float; lastControl := Some [15; 5]%float; firstPoint := None |}
     = Ok (smooth_quadratic 10 10 15 5 [(20, 20); (30, 30)]%float,
           {| lastPoint := fst (after_quadratic 10 10 15 5 [(20, 20); (30, 30)]%float);
              lastControl := Some (snd (after_quadratic 10 10 15 5 [(20, 20); (30, 30)]%float));
              firstPoint := None |}).
Proof.
  split; [reflexivity|]. split; [reflexivity|].
  exact (proj1 (smooth_reflection_per_group [(20, 20); (30, 30)]%float []
                  {| lastPoint := [10; 10]%float; lastControl := Some [15; 5]%float;
                     firstPoint := None |} 10 10 15 5 eq_refl eq_refl)).
Defined.

Example smooth_quadratic_two_groups :
  smooth_quadratic 10 10 15 5 [(20, 20); (30, 30)]%float
  = [ {| commandChar := "Q"; coords := [5; 15; 20; 20]%float |};
      {| commandChar := "Q"; coords := [35; 25; 30; 30]%float |} ].
Proof. vm_compute. reflexivity. Qed.

(** ** [H] and [V] segments *)

Lemma toLine_fold (axis : nat) (arguments : list float) :
  axis = 0 \/ axis = 1 ->
  Forall (fun arg => is_nan arg = false) arguments ->
  forall (acc : list float) (x y : float),
    fold_left (toLine_step axis) arguments (acc, [x; y])
    = ((acc ++ line_coords axis x y arguments)%list, line_base axis x y arguments).
Proof.
  intros Haxis Hnan. induction Hnan as [|arg tl Harg _ IH]; intros acc x y.
  - cbn [fold_left line_coords line_base]. rewrite app_nil_r. reflexivity.
  - cbn [fold_left line_coords line_base]. unfold toLine_step at 2, ToBoolean, line_part.
    rewrite Harg, orb_false_r.
    destruct Haxis as [-> | ->]; cbn [set]; rewrite IH, <- app_assoc;
      destruct (PrimFloat.eqb arg 0); reflexivity.
Qed.

(** C10: in an [H], [h], [V] or [v] segment an argument equal to zero adds
    the single value [0] to the coordinate list, since [&&] stops at the
    falsy value of the assignment, and every other argument adds the full
    pair made of the argument and the other axis of the base point; the
    base point takes the argument on its axis in both cases. *)
Theorem toLine_zero_argument :
  forall (c : string) (arguments : list float) (st : State) (x y : float),
    In c ["H"; "h"; "V"; "v"] ->
    lastPoint st = [x; y] ->
    Forall (fun arg => is_nan arg = false) arguments ->
    let axis := if test_H_i c then 0 else 1 in
    toLine {| commandChar := c; coords := arguments |} st
    = (if test_HV c
       then Ok ({| commandChar := "L"; coords := line_coords axis x y arguments |},
                {| lastPoint := line_base axis x y arguments;
                   lastControl := lastControl st;
                   firstPoint := firstPoint st |})
       else Ok ({| commandChar := "l"; coords := line_coords axis 0 0 arguments |}, st))
    /\ (forall (x0 y0 arg : float),
           PrimFloat.eqb arg 0 = true -> line_part axis x0 y0 arg = [arg])
    /\ (forall (x0 y0 arg : float),
           PrimFloat.eqb arg 0 = false ->
           line_part 0 x0 y0 arg = [arg; y0] /\ line_part 1 x0 y0 arg = [x0; arg]).
Proof.
  intros c arguments st x y Hc Hlast Hnan axis.
  split; [|split].
  - unfold toLine. cbn [commandChar coords]. fold axis. rewrite Hlast.
    assert (Haxis : axis = 0 \/ axis = 1)
      by (unfold axis; destruct (test_H_i c); [left | right]; reflexivity).
    destruct (test_HV c); rewrite (toLine_fold axis arguments Haxis Hnan); reflexivity.
  - intros x0 y0 arg Hzero. unfold line_part. rewrite Hzero. reflexivity.
  - intros x0 y0 arg Hzero. unfold line_part. rewrite Hzero. split; reflexivity.
Qed.

Lemma toLine_zero_argument_witness :
  In "H" ["H"; "h"; "V"; "v"]
  /\ lastPoint {| lastPoint := [0; 5]%float; lastControl := None; firstPoint := None |}
     = [0; 5]%float
  /\ Forall (fun arg => is_nan arg = false) [10; 0]%float
  /\ toLine {| commandChar := "H"; coords := [10; 0]%float |}
       {| lastPoint := [0; 5]%float; lastControl := None; firstPoint := None |}
     = Ok ({| commandChar := "L"; coords := [10; 5; 0]%float |},
           {| lastPoint := [0; 5]%float; lastControl := None; firstPoint := None |}).
Proof.
  split; [left; reflexivity|]. split; [reflexivity|].
  split; [repeat constructor|].
  refine (proj1 (toLine_zero_argument "H" [10; 0]%float
                   {| lastPoint := [0; 5]%float; lastControl := None; firstPoint := None |}
                   0 5 _ _ _));
    [left; reflexivity | reflexivity | repeat constructor].
Defined.

Lemma truthy_not_nan (arguments : list float) :
  Forall (fun arg => ToBoolean arg = true) arguments ->
  Forall (fun arg => is_nan arg = false) arguments.
Proof.
  apply Forall_impl. intros arg Harg. unfold ToBoolean in Harg.
  apply negb_true_iff, orb_false_elim in Harg. apply Harg.
Qed.

Lemma line_coords_horizontal (arguments : list float) :
  Forall (fun arg => ToBoolean arg = true) arguments ->
  forall x y : float,
    line_coords 0 x y arguments = flatten2 (map (fun arg => (arg, y)) arguments).
Proof.
  intros Hargs. induction Hargs as [|arg tl Harg _ IH]; intros x y.
  - reflexivity.
  - cbn [line_coords map]. unfold line_part, ToBoolean in *.
    apply negb_true_iff, orb_false_elim in Harg. destruct Harg as [-> _].
    rewrite IH. reflexivity.
Qed.

Lemma line_coords_vertical (arguments : list float) :
  Forall (fun arg => ToBoolean arg = true) arguments ->
  forall x y : float,
    line_coords 1 x y arguments = flatten2 (map (fun arg => (x, arg)) arguments).
Proof.
  intros Hargs. induction Hargs as [|arg tl Harg _ IH]; intros x y.
  - reflexivity.
  - cbn [line_coords map]. unfold line_part, ToBoolean in *.
    apply negb_true_iff, orb_false_elim in Harg. destruct Harg as [-> _].
    rewrite IH. reflexivity.
Qed.

(** Away from zero the carry-forward rule of [H] and [V] holds: every
    argument gives a LineTo to the point made of the argument and the other
    axis of the current point. *)
Lemma absolute_line_nonzero (arguments : list float) (st : State) (x y : float) :
  lastPoint st = [x; y] ->
  Forall (fun arg => ToBoolean arg = true) arguments ->
  (exists st',
      Pipeline.V {| commandChar := "H"; coords := arguments |} st
      = Ok (map (fun arg => {| commandChar := "L"; coords := [arg; y] |}) arguments, st'))
  /\ (exists st',
         Pipeline.V {| commandChar := "V"; coords := arguments |} st
         = Ok (map (fun arg => {| commandChar := "L"; coords := [x; arg] |}) arguments, st')).
Proof.
  intros Hlast Hargs.
  split; unfold Pipeline.V, Pipeline.L, pipe, bind, toLine, storeLastPoint,
           splitArgsSequence, ret;
    cbn [commandChar coords test_HV test_H_i Ascii.eqb Bool.eqb orb]; rewrite Hlast.
  - rewrite (toLine_fold 0 arguments (or_introl eq_refl) (truthy_not_nan _ Hargs)).
    cbn [app commandChar coords numbOfArgsByCommand String.eqb Ascii.eqb Bool.eqb].
    rewrite (line_coords_horizontal arguments Hargs), chunk_flatten2, !map_map.
    eexists. reflexivity.
  - rewrite (toLine_fold 1 arguments (or_intror eq_refl) (truthy_not_nan _ Hargs)).
    cbn [app commandChar coords numbOfArgsByCommand String.eqb Ascii.eqb Bool.eqb].
    rewrite (line_coords_vertical arguments Hargs), chunk_flatten2, !map_map.
    eexists. reflexivity.
Qed.

(** C8: ["H 10 20"] from the current point (0,5) gives LineTo(10,5) and
    LineTo(20,5), the y of the current point carried along; with a zero among
    the arguments the rule fails: ["H 10 0"] from the same point gives
    LineTo(10,5) and a LineTo with the single argument 0, not LineTo(0,5). *)
Theorem horizontal_carry_forward_and_zero :
  run "M 0 5 H 10 20" []
  = ([ mkCall moveTo [0; 5]%float; mkCall lineTo [10; 5]%float;
       mkCall lineTo [20; 5]%float ], Normal)
  /\ run "M 0 5 H 10 0" []
     = ([ mkCall moveTo [0; 5]%float; mkCall lineTo [10; 5]%float;
          mkCall lineTo [0%float] ], Normal)
  /\ run "M 3 4 V 0 7" []
     = ([ mkCall moveTo [3; 4]%float; mkCall lineTo [0; 3]%float;
          mkCall lineTo [7%float] ], Normal).
Proof. repeat split; vm_compute; reflexivity. Qed.

(** ** Inputs without a command *)

Lemma run_without_segment (d : string) (graphics : Graphics) :
  segments_of d = [] -> run d graphics = (graphics, Abrupt TypeError).
Proof.
  intros H. unfold run, match_g. fold (segments_of d). rewrite H. reflexivity.
Qed.

(** C3: on the empty string, and on any string in which [commandRegex]
    finds nothing, [match] gives [null] and the call of [forEach] on it
    throws a [TypeError]; the function itself has thrown at line 26 before. *)
Theorem no_segment_throws :
  match_g commandRegex_at "" = None
  /\ run "" [] = ([], Abrupt TypeError)
  /\ run "12 34" [] = ([], Abrupt TypeError)
  /\ parsePathData "" [] = ([], Abrupt ReferenceError).
Proof. repeat split; vm_compute; reflexivity. Qed.

(** ** Closing a subpath *)

Lemma callCommands_preserves (P : Call -> Prop) :
  (forall (c : string) (f : DrawFn) (coords : list float),
      pixiDrawFns c = Some f -> P {| fn := f; args := coords |}) ->
  forall (commands : list DrawCommand) (graphics : Graphics),
    Forall P graphics -> Forall P (fst (callCommands commands graphics)).
Proof.
  intros HP commands. induction commands as [|cmd tl IH]; intros graphics Hg.
  - exact Hg.
  - cbn [callCommands]. destruct (pixiDrawFns (commandChar cmd)) as [f|] eqn:Hf.
    + apply IH. apply Forall_app. split; [exact Hg|].
      constructor; [|constructor]. eapply HP. exact Hf.
    + exact Hg.
Qed.

Lemma segment_step_preserves (P : Call -> Prop) :
  (forall (c : string) (f : DrawFn) (coords : list float),
      pixiDrawFns c = Some f -> P {| fn := f; args := coords |}) ->
  forall (segment : string) (st : State) (graphics : Graphics),
    Forall P graphics -> Forall P (fst (segment_step segment st graphics)).
Proof.
  intros HP segment st graphics Hg. unfold segment_step.
  destruct (Pipeline.parse (getCommand segment)) as [entry|]; [|exact Hg].
  destruct (entry (getCommand segment) segment st) as [[commands st']|e]; [|exact Hg].
  pose proof (callCommands_preserves P HP commands graphics Hg) as H.
  destruct (callCommands commands graphics) as [graphics' [|e]]; exact H.
Qed.

Lemma forEach_segment_preserves (P : Call -> Prop) :
  (forall (c : string) (f : DrawFn) (coords : list float),
      pixiDrawFns c = Some f -> P {| fn := f; args := coords |}) ->
  forall (segments : list string) (st : State) (graphics : Graphics),
    Forall P graphics -> Forall P (fst (forEach_segment segments st graphics)).
Proof.
  intros HP segments. induction segments as [|segment tl IH]; intros st graphics Hg.
  - exact Hg.
  - cbn [forEach_segment].
    pose proof (segment_step_preserves P HP segment st graphics Hg) as H.
    destruct (segment_step segment st graphics) as [graphics' [st'|e]].
    + apply IH. exact H.
    + exact H.
Qed.

Lemma pixiDrawFns_not_closePath (c : string) (f : DrawFn) :
  pixiDrawFns c = Some f -> f <> closePath.
Proof.
  unfold pixiDrawFns.
  repeat match goal with
         | |- context [String.eqb c ?k] => destruct (String.eqb c k)
         end; intros H; inversion H; discriminate.
Qed.

(** C7: at a [Z] or [z], when the current point equals the start of the
    subpath nothing is emitted; otherwise exactly one LineTo to the start of
    the subpath is emitted.  Whatever the input, [closePath] is never called
    on the graphics object. *)
Theorem closePath_policy :
  forall (segment : string) (st : State) (sx sy px py : float) (graphics : Graphics),
    getCommand segment = "Z" \/ getCommand segment = "z" ->
    firstPoint st = Some [sx; sy] ->
    lastPoint st = [px; py] ->
    segment_step segment st graphics
    = (if strict_eq sx px && strict_eq sy py
       then (graphics, Ok st)
       else ((graphics ++ [mkCall lineTo [sx; sy]])%list,
             Ok {| lastPoint := [sx; sy];
                   lastControl := lastControl st;
                   firstPoint := Some [sx; sy] |}))
    /\ forall d : string, Forall (fun call => fn call <> closePath) (fst (run d [])).
Proof.
  intros segment st sx sy px py graphics Hcmd Hfirst Hlast. split.
  - unfold segment_step.
    assert (Hparse : Pipeline.parse (getCommand segment) = Some Pipeline.CloseIfOpen)
      by (destruct Hcmd as [-> | ->]; reflexivity).
    rewrite Hparse. unfold Pipeline.CloseIfOpen. rewrite Hfirst, Hlast.
    unfold isEqual. cbn [List.length Nat.eqb every_eq get nth_error andb].
    rewrite andb_true_r.
    destruct (strict_eq sx px && strict_eq sy py); cbn [negb].
    + reflexivity.
    + unfold Pipeline.Z, Pipeline.L, pipe, bind, lineToFirstPoint, storeLastPoint,
        splitArgsSequence, ret.
      rewrite Hfirst.
      cbn [commandChar coords numbOfArgsByCommand String.eqb Ascii.eqb Bool.eqb
           lastControl firstPoint].
      rewrite Hfirst. reflexivity.
  - intros d. unfold run. destruct (match_g commandRegex_at d) as [segments|].
    + apply forEach_segment_preserves; [|constructor].
      intros c f coords Hf. cbn [fn]. eapply pixiDrawFns_not_closePath. exact Hf.
    + constructor.
Qed.

Lemma closePath_policy_witness :
  (getCommand "z" = "Z" \/ getCommand "z" = "z")
  /\ firstPoint {| lastPoint := [2; 2]%float; lastControl := None;
                   firstPoint := Some [1; 1]%float |} = Some [1; 1]%float
  /\ lastPoint {| lastPoint := [2; 2]%float; lastControl := None;
                  firstPoint := Some [1; 1]%float |} = [2; 2]%float
  /\ segment_step "z" {| lastPoint := [2; 2]%float; lastControl := None;
                         firstPoint := Some [1; 1]%float |} []
     = ([mkCall lineTo [1; 1]%float],
        Ok {| lastPoint := [1; 1]%float; lastControl := None;
              firstPoint := Some [1; 1]%float |}).
Proof.
  split; [right; reflexivity|]. split; [reflexivity|]. split; [reflexivity|].
  refine (proj1 (closePath_policy "z"
                   {| lastPoint := [2; 2]%float; lastControl := None;
                      firstPoint := Some [1; 1]%float |} 1 1 2 2 [] _ _ _));
    [right; reflexivity | reflexivity | reflexivity].
Defined.

(** ** Unsupported commands *)

Section Tokens.

(** A character class without the letters [A] and [a]. *)
Variable p : ascii -> bool.
Hypothesis p_no_arc : forall c : ascii, p c = true -> is_arc_char c = false.

Lemma span_keeps_arc (s : string) :
  contains_arc (snd (span p s)) = contains_arc s
  /\ String.length (snd (span p s)) <= String.length s.
Proof.
  induction s as [|c tl [IHarc IHlen]]; cbn [span].
  - split; [reflexivity | apply Nat.le_refl].
  - destruct (p c) eqn:Hp.
    + destruct (span p tl) as [m rest]. cbn [snd contains_arc String.length] in *.
      rewrite (p_no_arc c Hp). split; [exact IHarc | lia].
    + cbn [snd]. split; [reflexivity | apply Nat.le_refl].
Qed.

Lemma optional_keeps_arc (s : string) :
  contains_arc (snd (optional p s)) = contains_arc s
  /\ String.length (snd (optional p s)) <= String.length s.
Proof.
  destruct s as [|c tl]; cbn [optional].
  - split; [reflexivity | apply Nat.le_refl].
  - destruct (p c) eqn:Hp; cbn [snd contains_arc String.length].
    + rewrite (p_no_arc c Hp). split; [reflexivity | lia].
    + split; [reflexivity | apply Nat.le_refl].
Qed.

End Tokens.

Lemma class_no_arc (p : ascii -> bool) :
  p "A"%char = false -> p "a"%char = false ->
  forall c : ascii, p c = true -> is_arc_char c = false.
Proof.
  intros HA Ha c Hp. unfold is_arc_char.
  destruct (Ascii.eqb_spec c "A") as [-> | _]; [congruence|].
  destruct (Ascii.eqb_spec c "a") as [-> | _]; [congruence|].
  reflexivity.
Qed.

Lemma argument_keeps_arc (s m rest : string) :
  argument s = Some (m, rest) ->
  contains_arc rest = contains_arc s /\ String.length rest <= String.length s.
Proof.
  unfold argument.
  pose proof (optional_keeps_arc (Ascii.eqb "-")
                (class_no_arc _ eq_refl eq_refl) s) as [Ho1 Ho2].
  destruct (optional (Ascii.eqb "-") s) as [sign s1]. cbn [snd] in Ho1, Ho2.
  pose proof (span_keeps_arc is_digit_or_dot
                (class_no_arc _ eq_refl eq_refl) s1) as [Hs1 Hs2].
  destruct (span is_digit_or_dot s1) as [digits s2]. cbn [snd] in Hs1, Hs2.
  destruct digits as [|d ds]; [discriminate|].
  pose proof (optional_keeps_arc is_separator
                (class_no_arc _ eq_refl eq_refl) s2) as [Hp1 Hp2].
  destruct (optional is_separator s2) as [sep s3]. cbn [snd] in Hp1, Hp2.
  intros [= _ <-]. split; [congruence | lia].
Qed.

Lemma arguments_keeps_arc (fuel : nat) :
  forall s : string,
    contains_arc (snd (arguments fuel s)) = contains_arc s
    /\ String.length (snd (arguments fuel s)) <= String.length s.
Proof.
  induction fuel as [|fuel IH]; intros s; cbn [arguments].
  - split; [reflexivity | apply Nat.le_refl].
  - destruct (argument s) as [[m rest]|] eqn:Harg.
    + destruct (argument_keeps_arc s m rest Harg) as [Ha1 Ha2].
      destruct (IH rest) as [Hr1 Hr2].
      destruct (arguments fuel rest) as [ms rest']. cbn [snd] in *.
      split; [congruence | lia].
    + split; [reflexivity | apply Nat.le_refl].
Qed.

(** A match of [commandRegex] starts with its command letter and swallows no
    [A] or [a] behind it. *)
Lemma commandRegex_at_keeps_arc (c : ascii) (tl m rest : string) :
  commandRegex_at (String c tl) = Some (m, rest) ->
  getCommand m = String c EmptyString
  /\ contains_arc rest = contains_arc tl
  /\ String.length rest <= String.length tl.
Proof.
  cbn [commandRegex_at]. destruct (is_command_letter c); [|discriminate].
  pose proof (optional_keeps_arc (Ascii.eqb " ")
                (class_no_arc _ eq_refl eq_refl) tl) as [Ho1 Ho2].
  destruct (optional (Ascii.eqb " ") tl) as [sp s1]. cbn [snd] in Ho1, Ho2.
  destruct (arguments_keeps_arc (String.length s1) s1) as [Ha1 Ha2].
  destruct (arguments (String.length s1) s1) as [args s2]. cbn [snd] in Ha1, Ha2.
  intros [= <- <-]. split; [reflexivity|]. split; [congruence | lia].
Qed.



(** ** The fuel of the scans

    [arguments] and [scan] are given the length of the string as fuel; each
    turn consumes a character, so more fuel changes nothing. *)

Lemma span_lengths (p : ascii -> bool) (s : string) :
  String.length (fst (span p s)) + String.length (snd (span p s)) = String.length s.
Proof.
  induction s as [|c tl IH]; cbn [span].
  - reflexivity.
  - destruct (p c); [|reflexivity].
    destruct (span p tl) as [m rest]. cbn [fst snd String.length] in *. lia.
Qed.

Lemma optional_lengths (p : ascii -> bool) (s : string) :
  String.length (snd (optional p s)) <= String.length s.
Proof.
  destruct s as [|c tl]; cbn [optional]; [apply Nat.le_refl|].
  destruct (p c); cbn [snd String.length]; lia.
Qed.

Lemma argument_consumes (s m rest : string) :
  argument s = Some (m, rest) -> String.length rest < String.length s.
Proof.
  unfold argument.
  pose proof (optional_lengths (Ascii.eqb "-") s) as H1.
  destruct (optional (Ascii.eqb "-") s) as [sign s1]. cbn [snd] in H1.
  pose proof (span_lengths is_digit_or_dot s1) as H2.
  destruct (span is_digit_or_dot s1) as [digits s2]. cbn [fst snd] in H2.
  destruct digits as [|d ds]; [discriminate|].
  pose proof (optional_lengths is_separator s2) as H3.
  destruct (optional is_separator s2) as [sep s3]. cbn [snd] in H3.
  intros [= _ <-]. cbn [String.length] in H2. lia.
Qed.

Lemma arguments_fuel_enough (f1 : nat) :
  forall (f2 : nat) (s : string),
    String.length s <= f1 -> String.length s <= f2 ->
    arguments f1 s = arguments f2 s.
Proof.
  induction f1 as [|f1 IH]; intros f2 s H1 H2.
  - destruct s; [|cbn in H1; lia]. destruct f2; reflexivity.
  - destruct f2 as [|f2].
    + destruct s; [reflexivity | cbn in H2; lia].
    + cbn [arguments]. destruct (argument s) as [[m rest]|] eqn:Harg; [|reflexivity].
      apply argument_consumes in Harg.
      rewrite (IH f2 rest) by lia. reflexivity.
Qed.

Lemma commandRegex_at_consumes (s m rest : string) :
  commandRegex_at s = Some (m, rest) -> String.length rest < String.length s.
Proof.
  destruct s as [|c tl]; [discriminate|].
  intros H. destruct (commandRegex_at_keeps_arc c tl m rest H) as (_ & _ & Hlen).
  cbn [String.length]. lia.
Qed.

Lemma coordsRegex_at_consumes (s m rest : string) :
  coordsRegex_at s = Some (m, rest) -> String.length rest < String.length s.
Proof.
  unfold coordsRegex_at.
  pose proof (optional_lengths (Ascii.eqb "-") s) as H1.
  destruct (optional (Ascii.eqb "-") s) as [sign s1]. cbn [snd] in H1.
  pose proof (span_lengths is_digit s1) as H2.
  destruct (span is_digit s1) as [int s2]. cbn [fst snd] in H2.
  destruct int as [|d ds]; [discriminate|]. cbn [String.length] in H2.
  destruct s2 as [|c s3]; [intros [= _ <-]; cbn [String.length]; lia|].
  destruct (Ascii.eqb_spec c ".") as [-> | Hc].
  - pose proof (span_lengths is_digit s3) as H3.
    destruct (span is_digit s3) as [frac s4]. cbn [fst snd] in H3.
    cbn [String.length] in H2.
    destruct frac; intros [= _ <-]; cbn [String.length] in *; lia.
  - assert (H : forall (A : Type) (x y : A),
               match c with
               | "."%char => x
               | _ => y
               end = y).
    { intros A x y.
      destruct c as [[] [] [] [] [] [] [] []]; try reflexivity. congruence. }
    rewrite H. intros [= _ <-]. cbn [String.length] in *. lia.
Qed.

Lemma scan_fuel_enough (re_at : string -> option (string * string)) :
  (forall s m rest, re_at s = Some (m, rest) -> String.length rest < String.length s) ->
  forall (f1 f2 : nat) (s : string),
    String.length s <= f1 -> String.length s <= f2 ->
    scan re_at f1 s = scan re_at f2 s.
Proof.
  intros Hre f1. induction f1 as [|f1 IH]; intros f2 s H1 H2.
  - destruct s; [|cbn in H1; lia]. destruct f2; reflexivity.
  - destruct f2 as [|f2].
    + destruct s; [reflexivity | cbn in H2; lia].
    + cbn [scan]. destruct s as [|c tl]; [reflexivity|].
      cbn [String.length] in H1, H2.
      destruct (re_at (String c tl)) as [[m rest]|] eqn:Hm.
      * apply Hre in Hm. cbn [String.length] in Hm.
        rewrite (IH f2 rest) by lia. reflexivity.
      * apply IH; lia.
Qed.

(** *** Every failure of the loop is a [TypeError] *)



















(** ** The arity of the emitted operations *)


Lemma Forall_mapi_from {A B : Type} (f : A -> nat -> B) (P : A -> Prop) (R : B -> Prop) :
  (forall (a : A) (idx : nat), P a -> R (f a idx)) ->
  forall (arr : list A) (idx : nat), Forall P arr -> Forall R (mapi_from f idx arr).
Proof.
  intros Hf arr. induction arr as [|a tl IH]; intros idx Harr; cbn [mapi_from].
  - constructor.
  - inversion Harr; subst. constructor; [apply Hf; assumption | apply IH; assumption].
Qed.

Lemma match_g_nonempty (re_at : string -> option (string * string)) (str : string)
      (ms : list string) :
  match_g re_at str = Some ms -> ms <> [].
Proof.
  unfold match_g. destruct (scan re_at (String.length str) str); [discriminate|].
  intros [= <-]. discriminate.
Qed.




Ltac run_pipeline H :=
  unfold Pipeline.v, Pipeline.t, Pipeline.q, Pipeline.m, Pipeline.l, Pipeline.V,
    Pipeline.Z, Pipeline.T, Pipeline.Q, Pipeline.M, Pipeline.L, pipe, bind,
    storeFirstPoint, storeLastPoint, storeLastControl, splitArgsSequence, fixMSequence,
    toAbsolute, ret in H;
  cbn [commandChar coords lastPoint lastControl firstPoint] in H.























(** * Further properties of the parser *)

(** ** The segments and the letters of the input *)

Section Letters.

(** A character class without letters. *)
Variable q : ascii -> bool.
Hypothesis q_no_letter : forall c : ascii, q c = true -> is_command_letter c = false.

Lemma span_keeps_letters (s : string) : letters (snd (span q s)) = letters s.
Proof.
  induction s as [|c tl IH]; cbn [span]; [reflexivity|].
  destruct (q c) eqn:Hq; [|reflexivity].
  destruct (span q tl) as [m rest]. cbn [snd letters] in *.
  rewrite (q_no_letter c Hq). exact IH.
Qed.

Lemma optional_keeps_letters (s : string) : letters (snd (optional q s)) = letters s.
Proof.
  destruct s as [|c tl]; cbn [optional]; [reflexivity|].
  destruct (q c) eqn:Hq; cbn [snd letters]; [|reflexivity].
  rewrite (q_no_letter c Hq). reflexivity.
Qed.

End Letters.

Lemma minus_no_letter (c : ascii) :
  Ascii.eqb "-" c = true -> is_command_letter c = false.
Proof. intros H. apply Ascii.eqb_eq in H. subst c. reflexivity. Qed.

Lemma space_no_letter (c : ascii) :
  Ascii.eqb " " c = true -> is_command_letter c = false.
Proof. intros H. apply Ascii.eqb_eq in H. subst c. reflexivity. Qed.

Lemma separator_no_letter (c : ascii) :
  is_separator c = true -> is_command_letter c = false.
Proof.
  unfold is_separator. intros H. apply orb_prop in H.
  destruct H as [H | H]; apply Ascii.eqb_eq in H; subst c; reflexivity.
Qed.

Lemma digit_or_dot_no_letter (c : ascii) :
  is_digit_or_dot c = true -> is_command_letter c = false.
Proof.
  destruct c as [[] [] [] [] [] [] [] []]; vm_compute; intros H;
    first [reflexivity | discriminate H].
Qed.

Lemma argument_keeps_letters (s m rest : string) :
  argument s = Some (m, rest) -> letters rest = letters s.
Proof.
  unfold argument.
  pose proof (optional_keeps_letters _ minus_no_letter s) as H1.
  destruct (optional (Ascii.eqb "-") s) as [sign s1]. cbn [snd] in H1.
  pose proof (span_keeps_letters _ digit_or_dot_no_letter s1) as H2.
  destruct (span is_digit_or_dot s1) as [digits s2]. cbn [snd] in H2.
  destruct digits as [|d ds]; [discriminate|].
  pose proof (optional_keeps_letters _ separator_no_letter s2) as H3.
  destruct (optional is_separator s2) as [sep s3]. cbn [snd] in H3.
  intros [= _ <-]. congruence.
Qed.

Lemma arguments_keeps_letters (fuel : nat) :
  forall s : string, letters (snd (arguments fuel s)) = letters s.
Proof.
  induction fuel as [|fuel IH]; intros s; cbn [arguments]; [reflexivity|].
  destruct (argument s) as [[m rest]|] eqn:Harg; [|reflexivity].
  pose proof (argument_keeps_letters s m rest Harg) as H1.
  pose proof (IH rest) as H2.
  destruct (arguments fuel rest) as [ms rest']. cbn [snd] in *. congruence.
Qed.

(** A match of [commandRegex] is headed by a command letter and swallows no
    other. *)
Lemma commandRegex_at_letters (c : ascii) (tl : string) :
  match commandRegex_at (String c tl) with
  | Some (m, rest) =>
      is_command_letter c = true
      /\ getCommand m = letter_string c
      /\ letters rest = letters tl
      /\ String.length rest <= String.length tl
  | None => is_command_letter c = false
  end.
Proof.
  destruct (commandRegex_at (String c tl)) as [[m rest]|] eqn:Hre.
  - destruct (commandRegex_at_keeps_arc c tl m rest Hre) as (Hm & _ & Hlen).
    cbn [commandRegex_at] in Hre. destruct (is_command_letter c); [|discriminate].
    pose proof (optional_keeps_letters _ space_no_letter tl) as H1.
    destruct (optional (Ascii.eqb " ") tl) as [sp s1]. cbn [snd] in H1.
    pose proof (arguments_keeps_letters (String.length s1) s1) as H2.
    destruct (arguments (String.length s1) s1) as [args s2]. cbn [snd] in H2.
    injection Hre as _ <-. repeat split; [exact Hm | congruence | exact Hlen].
  - cbn [commandRegex_at] in Hre. destruct (is_command_letter c); [|reflexivity].
    destruct (optional (Ascii.eqb " ") tl) as [sp s1].
    destruct (arguments (String.length s1) s1); discriminate.
Qed.

Lemma scan_heads (fuel : nat) :
  forall s : string,
    String.length s <= fuel ->
    map getCommand (scan commandRegex_at fuel s) = map letter_string (letters s).
Proof.
  induction fuel as [|fuel IH]; intros s Hlen.
  - destruct s; [reflexivity | cbn in Hlen; lia].
  - destruct s as [|c tl]; [reflexivity|].
    cbn [scan letters]. cbn [String.length] in Hlen.
    pose proof (commandRegex_at_letters c tl) as H.
    destruct (commandRegex_at (String c tl)) as [[m rest]|].
    + destruct H as (Hc & Hm & Hrest & Hl). rewrite Hc. cbn [map].
      rewrite Hm, IH by lia. rewrite Hrest. reflexivity.
    + rewrite H. apply IH. lia.
Qed.

Lemma segment_heads (d : string) :
  map getCommand (segments_of d) = map letter_string (letters d).
Proof. apply scan_heads. apply Nat.le_refl. Qed.

(** The commands of an input are its letters: every ASCII letter but [E]
    and [e] heads a segment of its own, in the order of the input, and
    nothing else does. *)
Theorem commands_are_the_letters :
  forall d : string,
    map getCommand (segments_of d) = map letter_string (letters d)
    /\ List.length (segments_of d) = List.length (letters d).
Proof.
  intros d. pose proof (segment_heads d) as H. split; [exact H|].
  apply (f_equal (@List.length string)) in H. rewrite !length_map in H. exact H.
Qed.

Lemma segments_skip (c : ascii) (tl : string) :
  is_command_letter c = false -> segments_of (String c tl) = segments_of tl.
Proof.
  intros Hc. unfold segments_of. cbn [String.length scan].
  pose proof (commandRegex_at_letters c tl) as H.
  destruct (commandRegex_at (String c tl)) as [[m rest]|]; [|reflexivity].
  destruct H as [H _]. congruence.
Qed.

(** A character that is no command letter, met in front of the input, is
    passed over: the call behaves as on the rest of the input. *)
Theorem leading_character_skipped :
  forall (c : ascii) (tl : string) (graphics : Graphics),
    is_command_letter c = false ->
    run (String c tl) graphics = run tl graphics.
Proof.
  intros c tl graphics Hc. unfold run, match_g. fold (segments_of (String c tl)).
  fold (segments_of tl). rewrite (segments_skip c tl Hc). reflexivity.
Qed.

Lemma leading_character_skipped_witness :
  is_command_letter " " = false
  /\ run (String " " "M 1 2") [] = run "M 1 2" [].
Proof.
  split; [reflexivity|].
  apply (leading_character_skipped " " "M 1 2" []). reflexivity.
Defined.

(** ** Letters without an entry in [parse] *)





(** ** The calls already made on the graphics object *)

Lemma callCommands_frame (commands : list DrawCommand) :
  forall graphics : Graphics,
    callCommands commands graphics
    = ((graphics ++ fst (callCommands commands []))%list, snd (callCommands commands [])).
Proof.
  induction commands as [|cmd tl IH]; intros graphics; cbn [callCommands].
  - cbn [fst snd]. rewrite app_nil_r. reflexivity.
  - destruct (pixiDrawFns (commandChar cmd)) as [f|].
    + rewrite (IH (graphics ++ _)%list), (IH ([] ++ _)%list). cbn [fst snd app].
      rewrite <- app_assoc. reflexivity.
    + cbn [fst snd]. rewrite app_nil_r. reflexivity.
Qed.

Lemma segment_step_frame (segment : string) (st : State) (graphics : Graphics) :
  segment_step segment st graphics
  = ((graphics ++ fst (segment_step segment st []))%list, snd (segment_step segment st [])).
Proof.
  unfold segment_step.
  destruct (Pipeline.parse (getCommand segment)) as [entry|];
    [|cbn [fst snd]; rewrite app_nil_r; reflexivity].
  destruct (entry (getCommand segment) segment st) as [[commands st']|e];
    [|cbn [fst snd]; rewrite app_nil_r; reflexivity].
  rewrite (callCommands_frame commands graphics).
  destruct (callCommands commands []) as [calls [|e]]; reflexivity.
Qed.

Lemma forEach_segment_frame (segments : list string) :
  forall (st : State) (graphics : Graphics),
    forEach_segment segments st graphics
    = ((graphics ++ fst (forEach_segment segments st []))%list,
       snd (forEach_segment segments st [])).
Proof.
  induction segments as [|segment tl IH]; intros st graphics; cbn [forEach_segment].
  - cbn [fst snd]. rewrite app_nil_r. reflexivity.
  - rewrite (segment_step_frame segment st graphics).
    destruct (segment_step segment st []) as [calls [st'|e]]; cbn [fst snd app].
    + rewrite (IH st' (graphics ++ calls)%list), (IH st' calls). cbn [fst snd].
      rewrite <- app_assoc. reflexivity.
    + reflexivity.
Qed.

(** The calls already made on the graphics object are kept, in order and in
    front of the new ones, and have no influence on the new calls nor on how
    the run ends. *)
Theorem run_keeps_earlier_calls :
  forall (d : string) (graphics : Graphics),
    run d graphics = ((graphics ++ fst (run d []))%list, snd (run d [])).
Proof.
  intros d graphics. unfold run.
  destruct (match_g commandRegex_at d) as [segments|].
  - apply forEach_segment_frame.
  - cbn [fst snd]. rewrite app_nil_r. reflexivity.
Qed.

(** ** The letters of the commands handed to [callCommands] *)

Lemma split_drawable (c : string) (groups : list (list float)) :
  In c ["M"; "L"; "Q"; "C"] ->
  Forall drawable (map (fun args => {| commandChar := c; coords := args |}) groups).
Proof.
  intros Hc. apply Forall_map. apply Forall_forall. intros g _. exact Hc.
Qed.

Lemma L_drawable (arr : list float) (st : State) :
  drawable_result (Pipeline.L {| commandChar := "L"; coords := arr |} st).
Proof.
  intros commands st' H. run_pipeline H. injection H as <- _.
  apply split_drawable. cbn. tauto.
Qed.

Lemma M_drawable (arr : list float) (st : State) :
  drawable_result (Pipeline.M {| commandChar := "M"; coords := arr |} st).
Proof.
  intros commands st' H. run_pipeline H. injection H as <- _. unfold mapi.
  apply (Forall_mapi_from _ (fun _ => True)).
  - intros cmd idx _. unfold drawable. cbn [commandChar].
    destruct (Nat.ltb 0 idx); cbn; tauto.
  - apply Forall_forall. intros; exact I.
Qed.

Lemma Q_drawable (c : string) (arr : list float) (st : State) :
  c = "Q" \/ c = "C" ->
  drawable_result (Pipeline.Q {| commandChar := c; coords := arr |} st).
Proof.
  intros Hc commands st' H. run_pipeline H. injection H as <- _.
  apply split_drawable. destruct Hc as [-> | ->]; cbn; tauto.
Qed.

Lemma mapM_smooth_drawable (cmds : list DrawCommand) :
  forall st : State, drawable_result (mapM smooth_stage cmds st).
Proof.
  induction cmds as [|cmd tl IH]; intros st commands st'.
  - cbn [mapM ret]. intros [= <- _]. constructor.
  - cbn [mapM]. unfold bind at 1.
    destruct (smooth_stage cmd st) as [[cmd' st1]|e] eqn:Hstage; [|discriminate].
    unfold bind.
    destruct (mapM smooth_stage tl st1) as [[cmds' st2]|e] eqn:Hrest; [|discriminate].
    cbn [ret]. intros [= <- _]. constructor; [|exact (IH st1 cmds' st2 Hrest)].
    unfold smooth_stage, pipe, bind, prependReflexedControlPoint in Hstage.
    destruct (lastControl st), (lastPoint st);
      cbn [storeLastPoint storeLastControl] in Hstage; try discriminate;
      injection Hstage as <- _; unfold drawable; cbn [commandChar];
      destruct (String.eqb (commandChar cmd) "T"); cbn; tauto.
Qed.

Lemma T_drawable (cmd : DrawCommand) (st : State) :
  drawable_result (Pipeline.T cmd st).
Proof.
  unfold Pipeline.T, pipe, bind, splitArgsSequence, ret.
  apply mapM_smooth_drawable.
Qed.

Lemma V_drawable (c : string) (arr : list float) (st : State) :
  test_HV c = true ->
  drawable_result (Pipeline.V {| commandChar := c; coords := arr |} st).
Proof.
  intros Hc. unfold Pipeline.V, pipe, bind, toLine. cbn [commandChar coords].
  rewrite Hc. destruct (fold_left _ arr _) as [list base]. apply L_drawable.
Qed.

Lemma v_drawable (c : string) (arr : list float) (st : State) :
  test_HV c = false ->
  drawable_result (Pipeline.v {| commandChar := c; coords := arr |} st).
Proof.
  intros Hc. unfold Pipeline.v, Pipeline.l, pipe, bind, toLine, toAbsolute.
  cbn [commandChar coords]. rewrite Hc.
  destruct (fold_left _ arr _) as [list base]. cbn [commandChar coords].
  apply L_drawable.
Qed.

Lemma CloseIfOpen_drawable (c segment : string) (st : State) :
  drawable_result (Pipeline.CloseIfOpen c segment st).
Proof.
  unfold Pipeline.CloseIfOpen.
  destruct (firstPoint st) as [first|] eqn:Hfirst; [|discriminate].
  destruct (negb (isEqual first (lastPoint st))).
  - unfold Pipeline.Z, pipe, bind, lineToFirstPoint. rewrite Hfirst. apply L_drawable.
  - intros commands st' [= <- _]. constructor.
Qed.

Lemma init_drawable (pipeline : DrawCommand -> Eff (list DrawCommand)) (c segment : string)
      (st : State) :
  (forall arr, drawable_result (pipeline {| commandChar := c; coords := arr |} st)) ->
  drawable_result (Pipeline.init pipeline c segment st).
Proof.
  intros H. unfold Pipeline.init, bind, getCommandObj.
  destruct (match_g coordsRegex_at segment); [apply H | discriminate].
Qed.

Ltac drawable_entry :=
  first
    [ apply CloseIfOpen_drawable
    | apply init_drawable; intros arr;
      first
        [ apply L_drawable
        | apply M_drawable
        | apply Q_drawable; (left + right); reflexivity
        | apply T_drawable
        | apply V_drawable; reflexivity
        | apply v_drawable; reflexivity
        | unfold Pipeline.l, Pipeline.m, Pipeline.q, Pipeline.t, pipe, bind, toAbsolute;
          cbn [commandChar coords];
          first
            [ apply L_drawable
            | apply M_drawable
            | apply Q_drawable; (left + right); reflexivity
            | apply T_drawable ] ] ].

Lemma entry_drawable (c segment : string) (st : State)
      (entry : string -> string -> Eff (list DrawCommand)) :
  Pipeline.parse c = Some entry ->
  drawable_result (entry c segment st).
Proof.
  unfold Pipeline.parse.
  repeat match goal with
         | |- context [String.eqb c ?k] =>
             destruct (String.eqb_spec c k) as [-> | _];
             [ intros [= <-]; drawable_entry |]
         end.
  discriminate.
Qed.

Lemma callCommands_drawable (commands : list DrawCommand) :
  Forall drawable commands ->
  forall graphics : Graphics,
  exists calls : list Call,
    callCommands commands graphics = ((graphics ++ calls)%list, Normal)
    /\ map args calls = map coords commands
    /\ map (fun call => Some (fn call)) calls
       = map (fun cmd => pixiDrawFns (commandChar cmd)) commands.
Proof.
  intros Hcmds. induction Hcmds as [|cmd tl Hcmd _ IH]; intros graphics.
  - exists []. cbn [callCommands map]. rewrite app_nil_r. repeat split.
  - cbn [callCommands].
    assert (Hf : exists f, pixiDrawFns (commandChar cmd) = Some f).
    { unfold drawable in Hcmd. cbn [In] in Hcmd.
      destruct Hcmd as [<- | [<- | [<- | [<- | []]]]]; eexists; reflexivity. }
    destruct Hf as [f Hf]. rewrite Hf.
    destruct (IH (graphics ++ [{| fn := f; args := coords cmd |}])%list)
      as (calls & Hcall & Hargs & Hfns).
    exists ({| fn := f; args := coords cmd |} :: calls).
    rewrite Hcall, <- app_assoc. cbn [app map args fn]. rewrite Hargs, Hfns, Hf.
    repeat split.
Qed.

(** Every command a [parse] entry returns carries one of the letters M, L, Q,
    C, whatever the segment and the state; so [callCommands] finds a draw
    function for each, never fails, and makes one call per command, in
    order, with the coordinates of the command as arguments. *)
Theorem every_returned_command_is_drawn :
  forall (segment : string) (st st' : State) (graphics : Graphics)
         (entry : string -> string -> Eff (list DrawCommand))
         (commands : list DrawCommand),
    Pipeline.parse (getCommand segment) = Some entry ->
    entry (getCommand segment) segment st = Ok (commands, st') ->
    Forall drawable commands
    /\ exists calls : list Call,
        segment_step segment st graphics = ((graphics ++ calls)%list, Ok st')
        /\ map args calls = map coords commands
        /\ map (fun call => Some (fn call)) calls
           = map (fun cmd => pixiDrawFns (commandChar cmd)) commands.
Proof.
  intros segment st st' graphics entry commands Hparse Hentry.
  pose proof (entry_drawable _ segment st entry Hparse commands st' Hentry) as Hdraw.
  split; [exact Hdraw|].
  destruct (callCommands_drawable commands Hdraw graphics) as (calls & Hcall & Hargs & Hfns).
  exists calls. unfold segment_step. rewrite Hparse, Hentry, Hcall. repeat split; assumption.
Qed.

Lemma every_returned_command_is_drawn_witness :
  Pipeline.parse (getCommand "h 5 0 7") = Some (Pipeline.init Pipeline.v)
  /\ Pipeline.init Pipeline.v (getCommand "h 5 0 7") "h 5 0 7" initial
     = Ok ([ {| commandChar := "L"; coords := [5 + 0; 0 + 0]%float |};
             {| commandChar := "L"; coords := [0 + 0; 7 + 0]%float |};
             {| commandChar := "L"; coords := [(0 + 0)%float] |} ],
           {| lastPoint := [(7 + 0)%float; (0 + 0)%float]; lastControl := None;
              firstPoint := None |})
  /\ Forall drawable
       [ {| commandChar := "L"; coords := [5 + 0; 0 + 0]%float |};
         {| commandChar := "L"; coords := [0 + 0; 7 + 0]%float |};
         {| commandChar := "L"; coords := [(0 + 0)%float] |} ].
Proof.
  split; [reflexivity|]. split; [vm_compute; reflexivity|].
  refine (proj1 (every_returned_command_is_drawn "h 5 0 7" initial _ []
                   (Pipeline.init Pipeline.v) _ _ _)).
  - reflexivity.
  - vm_compute. reflexivity.
Defined.

(** ** When a segment fails *)

Lemma plain_pipelines_return (cmd : DrawCommand) (st : State) :
  (exists r, Pipeline.L cmd st = Ok r)
  /\ (exists r, Pipeline.M cmd st = Ok r)
  /\ (exists r, Pipeline.Q cmd st = Ok r)
  /\ (exists r, Pipeline.V cmd st = Ok r)
  /\ (exists r, Pipeline.l cmd st = Ok r)
  /\ (exists r, Pipeline.m cmd st = Ok r)
  /\ (exists r, Pipeline.q cmd st = Ok r)
  /\ (exists r, Pipeline.v cmd st = Ok r).
Proof.
  unfold Pipeline.v, Pipeline.q, Pipeline.m, Pipeline.l, Pipeline.V, Pipeline.Q,
    Pipeline.M, Pipeline.L, pipe, bind, toLine.
  destruct (fold_left _ (coords cmd) _) as [list base].
  repeat split; eexists; reflexivity.
Qed.

Lemma mapM_smooth_returns (cmds : list DrawCommand) :
  forall st : State,
    lastControl st <> None -> exists r, mapM smooth_stage cmds st = Ok r.
Proof.
  induction cmds as [|cmd tl IH]; intros st Hcontrol.
  - eexists. reflexivity.
  - cbn [mapM]. unfold bind at 1, smooth_stage at 1, pipe, bind, prependReflexedControlPoint.
    destruct (lastControl st) as [control|]; [|congruence].
    cbn [storeLastPoint storeLastControl].
    match goal with
    | |- context [mapM smooth_stage tl ?s] =>
        destruct (IH s) as [[cmds' st2] Hrest]; [cbn [lastControl]; discriminate|];
        rewrite Hrest
    end.
    eexists. reflexivity.
Qed.

Lemma T_returns (cmd : DrawCommand) (st : State) :
  lastControl st <> None ->
  (exists r, Pipeline.T cmd st = Ok r) /\ (exists r, Pipeline.t cmd st = Ok r).
Proof.
  intros Hcontrol.
  unfold Pipeline.t, Pipeline.T, pipe, bind, toAbsolute, splitArgsSequence, ret.
  split; apply mapM_smooth_returns; exact Hcontrol.
Qed.

(** Without a control point the first group of a smooth curve throws. *)
Lemma T_throws (c : string) (arr : list float) (st : State) :
  c = "T" \/ c = "S" ->
  arr <> [] ->
  lastPoint st <> [] ->
  lastControl st = None ->
  Pipeline.T {| commandChar := c; coords := arr |} st = Throw TypeError.
Proof.
  intros Hc Harr Hlast Hcontrol.
  destruct arr as [|a tl]; [congruence|].
  unfold Pipeline.T, pipe, bind, splitArgsSequence, ret. cbn [commandChar coords].
  destruct Hc as [-> | ->];
    cbn [numbOfArgsByCommand String.eqb Ascii.eqb Bool.eqb];
    rewrite chunk_cons by discriminate; cbn [map mapM];
    unfold bind, prependReflexedControlPoint;
    rewrite Hcontrol; destruct (lastPoint st); [congruence | reflexivity | congruence | reflexivity].
Qed.

Lemma t_throws (c : string) (arr : list float) (st : State) :
  c = "t" \/ c = "s" ->
  arr <> [] ->
  lastPoint st <> [] ->
  lastControl st = None ->
  Pipeline.t {| commandChar := c; coords := arr |} st = Throw TypeError.
Proof.
  intros Hc Harr Hlast Hcontrol.
  unfold Pipeline.t, pipe at 1, bind, toAbsolute. cbn [commandChar coords].
  apply T_throws; try assumption.
  - destruct Hc as [-> | ->]; [left | right]; reflexivity.
  - destruct arr; [congruence | discriminate].
Qed.

Lemma init_without_token (pipeline : DrawCommand -> Eff (list DrawCommand))
      (c segment : string) (st : State) :
  match_g coordsRegex_at segment = None ->
  Pipeline.init pipeline c segment st = Throw TypeError.
Proof.
  intros H. unfold Pipeline.init, bind, getCommandObj. rewrite H. reflexivity.
Qed.

Lemma init_with_tokens (pipeline : DrawCommand -> Eff (list DrawCommand))
      (c segment : string) (toks : list string) (st : State) :
  match_g coordsRegex_at segment = Some toks ->
  Pipeline.init pipeline c segment st
  = pipeline {| commandChar := c; coords := map Number toks |} st.
Proof.
  intros H. unfold Pipeline.init, bind, getCommandObj. rewrite H. reflexivity.
Qed.

Lemma tokens_nonempty (segment : string) (toks : list string) :
  match_g coordsRegex_at segment = Some toks -> map Number toks <> [].
Proof.
  intros H. apply match_g_nonempty in H. destruct toks; [congruence | discriminate].
Qed.

Lemma CloseIfOpen_outcome (c segment : string) (st : State) :
  match firstPoint st with
  | None => Pipeline.CloseIfOpen c segment st = Throw TypeError
  | Some _ => exists r, Pipeline.CloseIfOpen c segment st = Ok r
  end.
Proof.
  unfold Pipeline.CloseIfOpen.
  destruct (firstPoint st) as [first|] eqn:Hfirst; [|reflexivity].
  destruct (negb (isEqual first (lastPoint st))); [|eexists; reflexivity].
  unfold Pipeline.Z, Pipeline.L, pipe, bind, lineToFirstPoint. rewrite Hfirst.
  eexists. reflexivity.
Qed.

Ltac entry_outcome_init Hlast :=
  match goal with
  | |- context [match_g coordsRegex_at ?segment] =>
      destruct (match_g coordsRegex_at segment) as [toks|] eqn:Htoks;
      [ pose proof (tokens_nonempty segment toks Htoks) as Hne;
        erewrite init_with_tokens by exact Htoks;
        first
          [ (* a pipeline that always returns *)
            split; [discriminate|]; intros _; apply plain_pipelines_return
          | (* a smooth curve *)
            match goal with
            | |- context [lastControl ?st] =>
                destruct (lastControl st) as [control|] eqn:Hcontrol;
                [ split; [discriminate|]; intros _;
                  apply T_returns; rewrite Hcontrol; discriminate
                | split; [intros _|discriminate];
                  first [ solve [apply T_throws; auto] | solve [apply t_throws; auto] ] ]
            end ]
      | split; [intros _; apply init_without_token; exact Htoks | discriminate] ]
  end.

Lemma entry_outcome (c segment : string) (st : State)
      (entry : string -> string -> Eff (list DrawCommand)) :
  Pipeline.parse c = Some entry ->
  lastPoint st <> [] ->
  let fails :=
    if is_close c then
      match firstPoint st with
      | None => true
      | Some _ => false
      end
    else
      match match_g coordsRegex_at segment with
      | None => true
      | Some _ =>
          is_smooth c && match lastControl st with
                         | None => true
                         | Some _ => false
                         end
      end in
  (fails = true -> entry c segment st = Throw TypeError)
  /\ (fails = false -> exists r, entry c segment st = Ok r).
Proof.
  intros Hparse Hlast. unfold Pipeline.parse in Hparse.
  repeat match type of Hparse with
         | context [String.eqb c ?k] =>
             destruct (String.eqb_spec c k) as [-> | _];
             [ injection Hparse as <-;
               cbv [is_close is_smooth String.eqb Ascii.eqb Bool.eqb orb andb];
               first
                 [ pose proof (CloseIfOpen_outcome k segment st) as H;
                   destruct (firstPoint st);
                   [ split; [discriminate | intros _; exact H]
                   | split; [intros _; exact H | discriminate] ]
                 | entry_outcome_init Hlast ]
             |]
         end.
  discriminate.
Qed.

Lemma segment_step_outcome (segment : string) (st : State) (graphics : Graphics) :
  lastPoint st <> [] ->
  (step_fails segment st = true ->
   segment_step segment st graphics = (graphics, Throw TypeError))
  /\ (step_fails segment st = false ->
      exists (calls : list Call) (st' : State),
        segment_step segment st graphics = ((graphics ++ calls)%list, Ok st')).
Proof.
  intros Hlast. unfold step_fails, supported, segment_step.
  destruct (Pipeline.parse (getCommand segment)) as [entry|] eqn:Hparse; cbn [negb].
  - destruct (entry_outcome _ segment st entry Hparse Hlast) as [Hfail Hok].
    cbv zeta in Hfail, Hok. split; intros H.
    + rewrite (Hfail H). reflexivity.
    + destruct (Hok H) as [[commands st'] Hentry]. rewrite Hentry.
      pose proof (entry_drawable _ segment st entry Hparse commands st' Hentry) as Hdraw.
      destruct (callCommands_drawable commands Hdraw graphics) as (calls & Hcall & _).
      rewrite Hcall. exists calls, st'. reflexivity.
  - split; [reflexivity | discriminate].
Qed.

(** On an exact segment, met in a state whose points are points, the loop
    fails in exactly four cases (the letter has no entry in [parse]; it is
    [Z] or [z] and no MoveTo has set the start of the subpath; it is not [Z]
    or [z] and holds no number; it is a [T], [t], [S] or [s] and no curve
    has set the control point), and then it emits nothing; in every other
    case it returns, having added its calls.  The two hypotheses keep
    [chunk] on lists that its size divides. *)
Theorem segment_fails_exactly_when :
  forall (segment : string) (st : State) (graphics : Graphics),
    point_shaped st ->
    exact_segment segment = true ->
    (step_fails segment st = true ->
     segment_step segment st graphics = (graphics, Throw TypeError))
    /\ (step_fails segment st = false ->
        exists (calls : list Call) (st' : State),
          segment_step segment st graphics = ((graphics ++ calls)%list, Ok st')).
Proof.
  intros segment st graphics [Hlast _] _. apply segment_step_outcome.
  intros Hnil. rewrite Hnil in Hlast. discriminate Hlast.
Qed.

Lemma segment_fails_exactly_when_witness :
  point_shaped initial
  /\ exact_segment "T 1 2" = true
  /\ exact_segment "L 1 2" = true
  /\ (step_fails "T 1 2" initial = true ->
      segment_step "T 1 2" initial [] = ([], Throw TypeError))
  /\ (step_fails "L 1 2" initial = false ->
      exists (calls : list Call) (st' : State),
        segment_step "L 1 2" initial [] = (([] ++ calls)%list, Ok st')).
Proof.
  assert (Hst : point_shaped initial) by (repeat split; discriminate).
  assert (HT : exact_segment "T 1 2" = true) by (vm_compute; reflexivity).
  assert (HL : exact_segment "L 1 2" = true) by (vm_compute; reflexivity).
  split; [exact Hst|]. split; [exact HT|]. split; [exact HL|]. split.
  - exact (proj1 (segment_fails_exactly_when "T 1 2" initial [] Hst HT)).
  - exact (proj2 (segment_fails_exactly_when "L 1 2" initial [] Hst HL)).
Defined.

(** ** The shape of the state, on any input *)

Lemma slice_last2_bounds {A : Type} (arr : list A) :
  arr <> [] -> 1 <= List.length (slice arr (-2) None) <= 2.
Proof.
  intros H. unfold slice, rel_index. cbn [Z.ltb Z.compare].
  rewrite length_firstn, length_skipn. destruct arr; [congruence|]. cbn [List.length]. lia.
Qed.

Lemma slice_first2_bounds {A : Type} (arr : list A) :
  arr <> [] -> 1 <= List.length (slice arr 0 (Some 2%Z)) <= 2.
Proof.
  intros H. unfold slice, rel_index.
  cbn [Z.ltb Z.compare Z.to_nat Pos.to_nat Pos.iter_op Nat.add].
  rewrite length_firstn, length_skipn. destruct arr; [congruence|]. cbn [List.length]. lia.
Qed.

Lemma slice_control_bound {A : Type} (arr : list A) :
  List.length (slice arr (-4) (Some (-2)%Z)) <= 2.
Proof.
  unfold slice, rel_index. cbn [Z.ltb Z.compare].
  rewrite length_firstn, length_skipn. lia.
Qed.

Lemma set_bounds (arr : list float) (axis : nat) (v : float) :
  1 <= List.length arr <= 2 -> axis <= 1 ->
  1 <= List.length (set arr axis v) <= 2.
Proof.
  intros Harr Haxis.
  destruct arr as [|a [|b [|c tl]]]; cbn [List.length] in Harr; try lia;
    destruct axis as [|[|axis]]; try lia; cbn [set List.length]; lia.
Qed.

Lemma toLine_fold_bounds (axis : nat) (arguments : list float) :
  axis <= 1 ->
  forall (acc base : list float),
    1 <= List.length base <= 2 ->
    1 <= List.length (snd (fold_left (toLine_step axis) arguments (acc, base))) <= 2
    /\ List.length acc <= List.length (fst (fold_left (toLine_step axis) arguments (acc, base)))
    /\ (arguments <> [] ->
        List.length acc
        < List.length (fst (fold_left (toLine_step axis) arguments (acc, base)))).
Proof.
  intros Haxis. induction arguments as [|arg tl IH]; intros acc base Hbase.
  - cbn [fold_left fst snd]. repeat split; try lia. congruence.
  - cbn [fold_left].
    change (toLine_step axis (acc, base) arg)
      with ((acc ++ (if ToBoolean arg then set base axis arg else [arg]))%list,
            set base axis arg).
    pose proof (set_bounds base axis arg Hbase Haxis) as Hset.
    destruct (IH (acc ++ (if ToBoolean arg then set base axis arg else [arg]))%list
                 (set base axis arg) Hset) as (H1 & H2 & _).
    rewrite length_app in H2.
    assert (1 <= List.length (if ToBoolean arg then set base axis arg else [arg]))
      by (destruct (ToBoolean arg); cbn [List.length]; lia).
    split; [exact H1|]. split; [lia|]. intros _. lia.
Qed.

Lemma mapi_nonempty {A B : Type} (f : A -> nat -> B) (arr : list A) :
  arr <> [] -> mapi f arr <> [].
Proof. destruct arr; [congruence | discriminate]. Qed.

Lemma L_bounded (c : string) (arr : list float) (st : State) :
  arr <> [] -> bounded_state st ->
  bounded_result (Pipeline.L {| commandChar := c; coords := arr |} st).
Proof.
  intros Harr (Hlast & Hfirst & Hcontrol) commands st' H.
  run_pipeline H. injection H as _ <-.
  split; [|split]; cbn [lastPoint lastControl firstPoint].
  - apply slice_last2_bounds; exact Harr.
  - exact Hfirst.
  - exact Hcontrol.
Qed.

Lemma M_bounded (c : string) (arr : list float) (st : State) :
  arr <> [] -> bounded_state st ->
  bounded_result (Pipeline.M {| commandChar := c; coords := arr |} st).
Proof.
  intros Harr (Hlast & Hfirst & Hcontrol) commands st' H.
  run_pipeline H. injection H as _ <-.
  split; [|split]; cbn [lastPoint lastControl firstPoint].
  - apply slice_last2_bounds; exact Harr.
  - intros first [= <-]. apply slice_first2_bounds; exact Harr.
  - exact Hcontrol.
Qed.

Lemma Q_bounded (c : string) (arr : list float) (st : State) :
  arr <> [] -> bounded_state st ->
  bounded_result (Pipeline.Q {| commandChar := c; coords := arr |} st).
Proof.
  intros Harr (Hlast & Hfirst & Hcontrol) commands st' H.
  run_pipeline H. injection H as _ <-.
  split; [|split]; cbn [lastPoint lastControl firstPoint].
  - apply slice_last2_bounds; exact Harr.
  - exact Hfirst.
  - intros control [= <-]. apply slice_control_bound.
Qed.

Lemma mapM_smooth_bounded (cmds : list DrawCommand) :
  forall st : State, bounded_state st -> bounded_result (mapM smooth_stage cmds st).
Proof.
  induction cmds as [|cmd tl IH]; intros st Hst commands st'.
  - cbn [mapM ret]. intros [= _ <-]. exact Hst.
  - cbn [mapM]. unfold bind at 1.
    destruct (smooth_stage cmd st) as [[cmd' st1]|e] eqn:Hstage; [|discriminate].
    unfold bind.
    destruct (mapM smooth_stage tl st1) as [[cmds' st2]|e] eqn:Hrest; [|discriminate].
    cbn [ret]. intros [= _ <-]. refine (IH st1 _ cmds' st2 Hrest).
    destruct Hst as (Hlast & Hfirst & Hcontrol).
    unfold smooth_stage, pipe, bind, prependReflexedControlPoint in Hstage.
    destruct (lastControl st) as [control|].
    + cbn [storeLastPoint storeLastControl coords lastPoint lastControl firstPoint] in Hstage.
      injection Hstage as _ <-.
      split; [|split]; cbn [lastPoint lastControl firstPoint].
      * apply slice_last2_bounds. destruct (lastPoint st); [cbn in Hlast; lia | discriminate].
      * exact Hfirst.
      * intros control' [= <-]. apply slice_control_bound.
    + destruct (lastPoint st); [cbn in Hlast; lia | discriminate].
Qed.

Lemma T_bounded (cmd : DrawCommand) (st : State) :
  bounded_state st -> bounded_result (Pipeline.T cmd st).
Proof.
  intros Hst. unfold Pipeline.T, pipe, bind, splitArgsSequence, ret.
  apply mapM_smooth_bounded. exact Hst.
Qed.

Lemma toLine_bounded (cmd : DrawCommand) (st : State) :
  coords cmd <> [] -> bounded_state st ->
  exists (line : DrawCommand) (st' : State),
    toLine cmd st = Ok (line, st')
    /\ coords line <> []
    /\ bounded_state st'
    /\ commandChar line = (if test_HV (commandChar cmd) then "L" else "l").
Proof.
  intros Harr (Hlast & Hfirst & Hcontrol). unfold toLine.
  set (axis := if test_H_i (commandChar cmd) then 0 else 1).
  assert (Haxis : axis <= 1) by (unfold axis; destruct (test_H_i (commandChar cmd)); lia).
  set (base := if test_HV (commandChar cmd) then lastPoint st else [0%float; 0%float]).
  assert (Hbase : 1 <= List.length base <= 2)
    by (unfold base; destruct (test_HV (commandChar cmd)); [exact Hlast | cbn; lia]).
  destruct (toLine_fold_bounds axis (coords cmd) Haxis [] base Hbase) as (H1 & _ & H3).
  specialize (H3 Harr).
  destruct (fold_left (toLine_step axis) (coords cmd) ([], base)) as [list base'].
  cbn [fst snd List.length] in *.
  eexists _, _. split; [reflexivity|]. split; [|split; [|reflexivity]].
  - cbn [coords]. destruct list; [cbn in H3; lia | discriminate].
  - destruct (test_HV (commandChar cmd)); (split; [|split]);
      cbn [lastPoint lastControl firstPoint]; assumption.
Qed.

Lemma V_bounded (cmd : DrawCommand) (st : State) :
  coords cmd <> [] -> bounded_state st -> bounded_result (Pipeline.V cmd st).
Proof.
  intros Harr Hst.
  destruct (toLine_bounded cmd st Harr Hst) as (line & st1 & Hline & Hne & Hst1 & _).
  unfold Pipeline.V, pipe, bind. rewrite Hline. destruct line as [lc larr].
  apply L_bounded; assumption.
Qed.

Lemma v_bounded (cmd : DrawCommand) (st : State) :
  coords cmd <> [] -> bounded_state st -> bounded_result (Pipeline.v cmd st).
Proof.
  intros Harr Hst.
  destruct (toLine_bounded cmd st Harr Hst) as (line & st1 & Hline & Hne & Hst1 & _).
  unfold Pipeline.v, Pipeline.l, pipe, bind. rewrite Hline. unfold toAbsolute.
  apply L_bounded; [|exact Hst1]. apply mapi_nonempty. exact Hne.
Qed.

Lemma CloseIfOpen_bounded (c segment : string) (st : State) :
  bounded_state st -> bounded_result (Pipeline.CloseIfOpen c segment st).
Proof.
  intros Hst. unfold Pipeline.CloseIfOpen.
  destruct (firstPoint st) as [first|] eqn:Hfirst; [|discriminate].
  destruct (negb (isEqual first (lastPoint st))).
  - unfold Pipeline.Z, pipe, bind, lineToFirstPoint. rewrite Hfirst.
    apply L_bounded; [|exact Hst].
    destruct Hst as (_ & Hf & _). specialize (Hf first Hfirst).
    destruct first; [cbn in Hf; lia | discriminate].
  - intros commands st' [= _ <-]. exact Hst.
Qed.

Lemma init_bounded (pipeline : DrawCommand -> Eff (list DrawCommand)) (c segment : string)
      (st : State) :
  (forall arr, arr <> [] ->
               bounded_result (pipeline {| commandChar := c; coords := arr |} st)) ->
  bounded_result (Pipeline.init pipeline c segment st).
Proof.
  intros H. unfold Pipeline.init, bind, getCommandObj.
  destruct (match_g coordsRegex_at segment) as [toks|] eqn:Htoks; [|discriminate].
  apply H. eapply tokens_nonempty. exact Htoks.
Qed.

Ltac bounded_entry Hst :=
  first
    [ apply CloseIfOpen_bounded; exact Hst
    | apply init_bounded; intros arr Harr;
      first
        [ apply L_bounded; assumption
        | apply M_bounded; assumption
        | apply Q_bounded; assumption
        | apply T_bounded; assumption
        | apply V_bounded; assumption
        | apply v_bounded; assumption
        | unfold Pipeline.l, Pipeline.m, Pipeline.q, Pipeline.t, pipe, bind, toAbsolute;
          first
            [ apply L_bounded; [apply mapi_nonempty|]; assumption
            | apply M_bounded; [apply mapi_nonempty|]; assumption
            | apply Q_bounded; [apply mapi_nonempty|]; assumption
            | apply T_bounded; assumption ] ] ].

Lemma entry_bounded (c segment : string) (st : State)
      (entry : string -> string -> Eff (list DrawCommand)) :
  Pipeline.parse c = Some entry ->
  bounded_state st ->
  bounded_result (entry c segment st).
Proof.
  intros Hparse Hst. unfold Pipeline.parse in Hparse.
  repeat match type of Hparse with
         | context [String.eqb c ?k] =>
             destruct (String.eqb_spec c k) as [-> | _];
             [ injection Hparse as <-; solve [bounded_entry Hst] |]
         end.
  discriminate.
Qed.

Lemma segment_step_returns (segment : string) (st st' : State) (graphics graphics' : Graphics) :
  segment_step segment st graphics = (graphics', Ok st') ->
  exists entry commands,
    Pipeline.parse (getCommand segment) = Some entry
    /\ entry (getCommand segment) segment st = Ok (commands, st').
Proof.
  unfold segment_step.
  destruct (Pipeline.parse (getCommand segment)) as [entry|]; [|discriminate].
  destruct (entry (getCommand segment) segment st) as [[commands st1]|e] eqn:Hentry;
    [|discriminate].
  destruct (callCommands commands graphics) as [g [|e]]; [|discriminate].
  intros [= _ <-]. exists entry, commands. split; [reflexivity | exact Hentry].
Qed.

Lemma segment_step_bounded (segment : string) (st st' : State)
      (graphics graphics' : Graphics) :
  bounded_state st ->
  segment_step segment st graphics = (graphics', Ok st') ->
  bounded_state st'.
Proof.
  intros Hst Hstep.
  destruct (segment_step_returns _ _ _ _ _ Hstep) as (entry & commands & Hparse & Hentry).
  exact (entry_bounded _ segment st entry Hparse Hst commands st' Hentry).
Qed.

Lemma initial_bounded : bounded_state initial.
Proof. split; [cbn; lia | split; discriminate]. Qed.

(** Whatever the segment, well formed or not, the state keeps its shape:
    after a segment that returns, [lastPoint] holds one or two numbers (it
    is never empty and never longer), and [firstPoint] and [lastControl]
    hold no more than two. *)
Theorem state_stays_bounded :
  forall (segment : string) (st st' : State) (graphics graphics' : Graphics),
    bounded_state st ->
    segment_step segment st graphics = (graphics', Ok st') ->
    bounded_state st'.
Proof. exact segment_step_bounded. Qed.

Lemma state_stays_bounded_witness :
  bounded_state initial
  /\ segment_step "L 5" initial []
     = ([mkCall lineTo [5%float]],
        Ok {| lastPoint := [5%float]; lastControl := None; firstPoint := None |})
  /\ bounded_state {| lastPoint := [5%float]; lastControl := None; firstPoint := None |}.
Proof.
  split; [exact initial_bounded|]. split; [vm_compute; reflexivity|].
  apply (state_stays_bounded "L 5" initial _ [] [mkCall lineTo [5%float]]).
  - exact initial_bounded.
  - vm_compute. reflexivity.
Defined.

(** ** Which commands write which variable *)

Lemma plain_pipelines_keep (cmd : DrawCommand) (st st' : State) (commands : list DrawCommand) :
  (Pipeline.L cmd st = Ok (commands, st') ->
   lastControl st' = lastControl st /\ firstPoint st' = firstPoint st)
  /\ (Pipeline.M cmd st = Ok (commands, st') -> lastControl st' = lastControl st)
  /\ (Pipeline.Q cmd st = Ok (commands, st') -> firstPoint st' = firstPoint st)
  /\ (Pipeline.V cmd st = Ok (commands, st') ->
      lastControl st' = lastControl st /\ firstPoint st' = firstPoint st)
  /\ (Pipeline.l cmd st = Ok (commands, st') ->
      lastControl st' = lastControl st /\ firstPoint st' = firstPoint st)
  /\ (Pipeline.m cmd st = Ok (commands, st') -> lastControl st' = lastControl st)
  /\ (Pipeline.q cmd st = Ok (commands, st') -> firstPoint st' = firstPoint st)
  /\ (Pipeline.v cmd st = Ok (commands, st') ->
      lastControl st' = lastControl st /\ firstPoint st' = firstPoint st).
Proof.
  unfold Pipeline.v, Pipeline.q, Pipeline.m, Pipeline.l, Pipeline.V, Pipeline.Q,
    Pipeline.M, Pipeline.L, pipe, bind, toLine, storeFirstPoint, storeLastPoint,
    storeLastControl, splitArgsSequence, fixMSequence, toAbsolute, ret.
  destruct (fold_left _ (coords cmd) _) as [list base].
  destruct (test_HV (commandChar cmd));
    repeat match goal with
           | |- _ /\ _ => split
           end;
    intros [= _ <-]; try split; reflexivity.
Qed.

Lemma mapM_smooth_keeps_first (cmds : list DrawCommand) :
  forall (st st' : State) (commands : list DrawCommand),
    mapM smooth_stage cmds st = Ok (commands, st') -> firstPoint st' = firstPoint st.
Proof.
  induction cmds as [|cmd tl IH]; intros st st' commands.
  - cbn [mapM ret]. intros [= _ <-]. reflexivity.
  - cbn [mapM]. unfold bind at 1.
    destruct (smooth_stage cmd st) as [[cmd' st1]|e] eqn:Hstage; [|discriminate].
    unfold bind.
    destruct (mapM smooth_stage tl st1) as [[cmds' st2]|e] eqn:Hrest; [|discriminate].
    cbn [ret]. intros [= _ <-]. rewrite (IH st1 st2 cmds' Hrest).
    unfold smooth_stage, pipe, bind, prependReflexedControlPoint in Hstage.
    destruct (lastControl st), (lastPoint st);
      cbn [storeLastPoint storeLastControl] in Hstage; try discriminate;
      injection Hstage as _ <-; reflexivity.
Qed.

Lemma smooth_pipelines_keep_first (cmd : DrawCommand) (st st' : State)
      (commands : list DrawCommand) :
  (Pipeline.T cmd st = Ok (commands, st') -> firstPoint st' = firstPoint st)
  /\ (Pipeline.t cmd st = Ok (commands, st') -> firstPoint st' = firstPoint st).
Proof.
  unfold Pipeline.t, Pipeline.T, pipe, bind, toAbsolute, splitArgsSequence, ret.
  split; apply mapM_smooth_keeps_first.
Qed.

Lemma CloseIfOpen_keeps (c segment : string) (st st' : State) (commands : list DrawCommand) :
  Pipeline.CloseIfOpen c segment st = Ok (commands, st') ->
  lastControl st' = lastControl st /\ firstPoint st' = firstPoint st.
Proof.
  unfold Pipeline.CloseIfOpen.
  destruct (firstPoint st) as [first|] eqn:Hfirst; [|discriminate].
  destruct (negb (isEqual first (lastPoint st))).
  - unfold Pipeline.Z, pipe, bind, lineToFirstPoint. rewrite Hfirst.
    intros H. rewrite <- Hfirst.
    exact (proj1 (plain_pipelines_keep _ st st' commands) H).
  - intros [= _ <-]. split; [reflexivity | exact Hfirst].
Qed.

Lemma init_returns (pipeline : DrawCommand -> Eff (list DrawCommand)) (c segment : string)
      (st : State) (r : list DrawCommand * State) :
  Pipeline.init pipeline c segment st = Ok r ->
  exists arr, pipeline {| commandChar := c; coords := arr |} st = Ok r.
Proof.
  unfold Pipeline.init, bind, getCommandObj.
  destruct (match_g coordsRegex_at segment) as [toks|]; [|discriminate].
  intros H. eexists. exact H.
Qed.

Ltac keeps_entry Hentry :=
  cbv [is_move is_curve is_smooth String.eqb Ascii.eqb Bool.eqb orb];
  first
    [ apply CloseIfOpen_keeps in Hentry; destruct Hentry; split; intros; assumption
    | apply init_returns in Hentry; destruct Hentry as [arr Hentry];
      first
        [ let K := fresh "K" in
          first
            [ pose proof (proj1 (smooth_pipelines_keep_first _ _ _ _) Hentry) as K
            | pose proof (proj2 (smooth_pipelines_keep_first _ _ _ _) Hentry) as K ];
          split; intros; [exact K | discriminate]
        | unfold Pipeline.v, Pipeline.q, Pipeline.m, Pipeline.l, Pipeline.V, Pipeline.Q,
            Pipeline.M, Pipeline.L, pipe, bind, toLine, storeFirstPoint, storeLastPoint,
            storeLastControl, splitArgsSequence, fixMSequence, toAbsolute, ret in Hentry;
          cbn [commandChar coords test_HV Ascii.eqb Bool.eqb orb] in Hentry;
          try match type of Hentry with
              | context [fold_left ?f ?l ?a] => destruct (fold_left f l a)
              end;
          injection Hentry as _ <-;
          split; intros; first [reflexivity | discriminate] ] ].

Lemma entry_keeps (c segment : string) (st st' : State) (commands : list DrawCommand)
      (entry : string -> string -> Eff (list DrawCommand)) :
  Pipeline.parse c = Some entry ->
  entry c segment st = Ok (commands, st') ->
  (is_move c = false -> firstPoint st' = firstPoint st)
  /\ (is_curve c = false -> is_smooth c = false -> lastControl st' = lastControl st).
Proof.
  intros Hparse Hentry. unfold Pipeline.parse in Hparse.
  repeat match type of Hparse with
         | context [String.eqb c ?k] =>
             destruct (String.eqb_spec c k) as [-> | _];
             [ injection Hparse as <-; solve [keeps_entry Hentry] |]
         end.
  discriminate.
Qed.

Lemma segment_step_keeps (segment : string) (st st' : State) (graphics graphics' : Graphics) :
  segment_step segment st graphics = (graphics', Ok st') ->
  (is_move (getCommand segment) = false -> firstPoint st' = firstPoint st)
  /\ (is_curve (getCommand segment) = false ->
      is_smooth (getCommand segment) = false ->
      lastControl st' = lastControl st).
Proof.
  intros Hstep.
  destruct (segment_step_returns _ _ _ _ _ Hstep) as (entry & commands & Hparse & Hentry).
  exact (entry_keeps _ segment st st' commands entry Hparse Hentry).
Qed.

(** Only the curve commands write the control point: a segment of M, L, H,
    V or Z (either case) that returns leaves [lastControl] as it found it,
    so a later [T] or [S] reflects the control point of the last curve,
    however many lines lie in between. *)
Theorem lines_keep_the_control_point :
  forall (segment : string) (st st' : State) (graphics graphics' : Graphics),
    is_curve (getCommand segment) = false ->
    is_smooth (getCommand segment) = false ->
    segment_step segment st graphics = (graphics', Ok st') ->
    lastControl st' = lastControl st.
Proof.
  intros segment st st' graphics graphics' Hcurve Hsmooth Hstep.
  apply (segment_step_keeps segment st st' graphics graphics' Hstep); assumption.
Qed.

Lemma lines_keep_the_control_point_witness :
  is_curve (getCommand "L 20 20") = false
  /\ is_smooth (getCommand "L 20 20") = false
  /\ segment_step "L 20 20"
       {| lastPoint := [10; 10]%float; lastControl := Some [15; 5]%float;
          firstPoint := None |} []
     = ([mkCall lineTo [20; 20]%float],
        Ok {| lastPoint := [20; 20]%float; lastControl := Some [15; 5]%float;
              firstPoint := None |})
  /\ lastControl {| lastPoint := [20; 20]%float; lastControl := Some [15; 5]%float;
                    firstPoint := None |}
     = lastControl {| lastPoint := [10; 10]%float; lastControl := Some [15; 5]%float;
                      firstPoint := None |}.
Proof.
  split; [reflexivity|]. split; [reflexivity|]. split; [vm_compute; reflexivity|].
  apply (lines_keep_the_control_point "L 20 20" _ _ [] [mkCall lineTo [20; 20]%float]).
  - reflexivity.
  - reflexivity.
  - vm_compute. reflexivity.
Defined.

(** ** Closing and smoothing too early *)










(** ** Absolute lines and curves *)

Lemma slice_last2_app {A : Type} (arr : list A) (a b : A) :
  slice (arr ++ [a; b]) (-2) None = [a; b].
Proof.
  unfold slice, rel_index. cbn [Z.ltb Z.compare]. rewrite length_app. cbn [List.length].
  replace (Z.to_nat (Z.max (Z.of_nat (List.length arr + 2) + -2) 0)) with (List.length arr + 0)
    by lia.
  replace (List.length arr + 2 - (List.length arr + 0)) with 2 by lia.
  rewrite skipn_app, Nat.add_0_r, skipn_all, Nat.sub_diag. reflexivity.
Qed.

Lemma slice_control_app {A : Type} (arr : list A) (a b c d : A) :
  slice (arr ++ [a; b; c; d]) (-4) (Some (-2)%Z) = [a; b].
Proof.
  unfold slice, rel_index. cbn [Z.ltb Z.compare]. rewrite length_app. cbn [List.length].
  replace (Z.to_nat (Z.max (Z.of_nat (List.length arr + 4) + -4) 0)) with (List.length arr + 0)
    by lia.
  replace (Z.to_nat (Z.max (Z.of_nat (List.length arr + 4) + -2) 0) - (List.length arr + 0))
    with 2 by lia.
  rewrite skipn_app, Nat.add_0_r, skipn_all, Nat.sub_diag. reflexivity.
Qed.

Lemma flatten2_app (g1 g2 : list (float * float)) :
  flatten2 (g1 ++ g2) = (flatten2 g1 ++ flatten2 g2)%list.
Proof. unfold flatten2. apply flat_map_app. Qed.

Lemma flatten4_app (g1 g2 : list (float * float * float * float)) :
  flatten4 (g1 ++ g2) = (flatten4 g1 ++ flatten4 g2)%list.
Proof. unfold flatten4. apply flat_map_app. Qed.

Lemma flatten6_app (g1 g2 : list (float * float * float * float * float * float)) :
  flatten6 (g1 ++ g2) = (flatten6 g1 ++ flatten6 g2)%list.
Proof. unfold flatten6. apply flat_map_app. Qed.

Lemma chunk_flatten6 (groups : list (float * float * float * float * float * float)) :
  chunk (flatten6 groups) 6
  = map (fun g => let '(c1x, c1y, c2x, c2y, x, y) := g in [c1x; c1y; c2x; c2y; x; y]) groups.
Proof.
  induction groups as [|[[[[[c1x c1y] c2x] c2y] x] y] tl IH].
  - reflexivity.
  - change (flatten6 ((c1x, c1y, c2x, c2y, x, y) :: tl))
      with (c1x :: c1y :: c2x :: c2y :: x :: y :: flatten6 tl).
    rewrite chunk_cons by discriminate. cbn [firstn skipn map].
    rewrite IH. reflexivity.
Qed.

(** An [L] segment of whole pairs emits one LineTo per pair, with the
    coordinates as written and in their order, and leaves the last pair as
    the current point. *)
Theorem absolute_lines_verbatim :
  forall (points : list (float * float)) (x y : float) (st : State) (graphics : Graphics),
    Pipeline.L {| commandChar := "L"; coords := flatten2 (points ++ [(x, y)]) |} st
    = Ok (map (fun p => {| commandChar := "L"; coords := [fst p; snd p] |})
              (points ++ [(x, y)]),
          {| lastPoint := [x; y];
             lastControl := lastControl st;
             firstPoint := firstPoint st |})
    /\ callCommands (map (fun p => {| commandChar := "L"; coords := [fst p; snd p] |})
                         (points ++ [(x, y)])) graphics
       = ((graphics ++ map (fun p => mkCall lineTo [fst p; snd p]) (points ++ [(x, y)]))%list,
          Normal).
Proof.
  intros points x y st graphics. split.
  - unfold Pipeline.L, pipe, bind, storeLastPoint, splitArgsSequence, ret.
    cbn [commandChar coords numbOfArgsByCommand String.eqb Ascii.eqb Bool.eqb
         lastControl firstPoint].
    rewrite chunk_flatten2, map_map, flatten2_app.
    change (flatten2 [(x, y)]) with [x; y]. rewrite slice_last2_app. reflexivity.
  - rewrite <- (map_map (fun p => [fst p; snd p]) (mkCommand "L")).
    rewrite (callCommands_map "L" lineTo) by reflexivity.
    rewrite map_map. reflexivity.
Qed.

(** A [Q] or [C] segment of whole groups returns one curve per group with
    the coordinates as written; afterwards the current point is the end
    point of the last group and the control point is the control point next
    to it: the only one of a [Q] group, the second one of a [C] group. *)
Theorem curves_store_the_last_control :
  forall (quads : list (float * float * float * float))
         (cubics : list (float * float * float * float * float * float))
         (c1x c1y cx cy x y : float) (st : State),
    Pipeline.Q {| commandChar := "Q"; coords := flatten4 (quads ++ [(cx, cy, x, y)]) |} st
    = Ok (map (fun g => {| commandChar := "Q";
                           coords := let '(c1, c2, p1, p2) := g in [c1; c2; p1; p2] |})
              (quads ++ [(cx, cy, x, y)]),
          {| lastPoint := [x; y];
             lastControl := Some [cx; cy];
             firstPoint := firstPoint st |})
    /\ Pipeline.Q {| commandChar := "C";
                     coords := flatten6 (cubics ++ [(c1x, c1y, cx, cy, x, y)]) |} st
       = Ok (map (fun g => {| commandChar := "C";
                              coords := let '(a1, a2, b1, b2, p1, p2) := g in
                                        [a1; a2; b1; b2; p1; p2] |})
                 (cubics ++ [(c1x, c1y, cx, cy, x, y)]),
             {| lastPoint := [x; y];
                lastControl := Some [cx; cy];
                firstPoint := firstPoint st |}).
Proof.
  intros quads cubics c1x c1y cx cy x y st.
  split; unfold Pipeline.Q, pipe, bind, storeLastPoint, storeLastControl,
           splitArgsSequence, ret;
    cbn [commandChar coords numbOfArgsByCommand String.eqb Ascii.eqb Bool.eqb
         lastPoint lastControl firstPoint].
  - rewrite chunk_flatten4, map_map, flatten4_app.
    change (flatten4 [(cx, cy, x, y)]) with [cx; cy; x; y].
    rewrite slice_control_app.
    change (flatten4 quads ++ [cx; cy; x; y])%list
      with (flatten4 quads ++ [cx; cy] ++ [x; y])%list.
    rewrite app_assoc, slice_last2_app. reflexivity.
  - rewrite chunk_flatten6, map_map, flatten6_app.
    change (flatten6 [(c1x, c1y, cx, cy, x, y)]) with [c1x; c1y; cx; cy; x; y].
    change (flatten6 cubics ++ [c1x; c1y; cx; cy; x; y])%list
      with (flatten6 cubics ++ [c1x; c1y] ++ [cx; cy; x; y])%list.
    rewrite app_assoc, slice_control_app.
    change ((flatten6 cubics ++ [c1x; c1y]) ++ [cx; cy; x; y])%list
      with ((flatten6 cubics ++ [c1x; c1y]) ++ [cx; cy] ++ [x; y])%list.
    rewrite app_assoc, slice_last2_app. reflexivity.
Qed.

(** ** Relative horizontal and vertical lines *)

(** An [h] or [v] segment without a zero emits, for every argument, a LineTo
    to the current point moved by the argument along the axis; the current
    point is the one the segment found, for every argument alike, and the
    other axis is computed as [0 + ] its value. *)
Theorem relative_lines_from_segment_start :
  forall (arguments : list float) (st : State) (px py : float),
    lastPoint st = [px; py] ->
    Forall (fun arg => ToBoolean arg = true) arguments ->
    (exists st',
        Pipeline.v {| commandChar := "h"; coords := arguments |} st
        = Ok (map (fun arg => {| commandChar := "L";
                                 coords := [(arg + px)%float; (0 + py)%float] |}) arguments,
              st'))
    /\ (exists st',
           Pipeline.v {| commandChar := "v"; coords := arguments |} st
           = Ok (map (fun arg => {| commandChar := "L";
                                    coords := [(0 + px)%float; (arg + py)%float] |}) arguments,
                 st')).
Proof.
  intros arguments st px py Hlast Hargs.
  split; unfold Pipeline.v, Pipeline.l, pipe, bind, toLine;
    cbn [commandChar coords test_HV test_H_i Ascii.eqb Bool.eqb orb].
  - rewrite (toLine_fold 0 arguments (or_introl eq_refl) (truthy_not_nan _ Hargs)).
    rewrite (toAbsolute_add_point _ st px py Hlast).
    unfold Pipeline.L, pipe, bind, storeLastPoint, splitArgsSequence, ret.
    cbn [app commandChar coords toUpperCase numbOfArgsByCommand].
    change (String (upper_ascii "l") "") with "L".
    cbn [numbOfArgsByCommand String.eqb Ascii.eqb Bool.eqb].
    rewrite (line_coords_horizontal arguments Hargs), add_point_flatten2, chunk_flatten2,
      !map_map.
    eexists. reflexivity.
  - rewrite (toLine_fold 1 arguments (or_intror eq_refl) (truthy_not_nan _ Hargs)).
    rewrite (toAbsolute_add_point _ st px py Hlast).
    unfold Pipeline.L, pipe, bind, storeLastPoint, splitArgsSequence, ret.
    cbn [app commandChar coords toUpperCase numbOfArgsByCommand].
    change (String (upper_ascii "l") "") with "L".
    cbn [numbOfArgsByCommand String.eqb Ascii.eqb Bool.eqb].
    rewrite (line_coords_vertical arguments Hargs), add_point_flatten2, chunk_flatten2,
      !map_map.
    eexists. reflexivity.
Qed.

Lemma relative_lines_from_segment_start_witness :
  lastPoint {| lastPoint := [1; 2]%float; lastControl := None; firstPoint := None |}
  = [1; 2]%float
  /\ Forall (fun arg => ToBoolean arg = true) [10; 20]%float
  /\ exists st',
      Pipeline.v {| commandChar := "h"; coords := [10; 20]%float |}
        {| lastPoint := [1; 2]%float; lastControl := None; firstPoint := None |}
      = Ok (map (fun arg => {| commandChar := "L";
                               coords := [(arg + 1)%float; (0 + 2)%float] |})
                [10; 20]%float,
            st').
Proof.
  split; [reflexivity|]. split; [repeat constructor|].
  refine (proj1 (relative_lines_from_segment_start [10; 20]%float
                   {| lastPoint := [1; 2]%float; lastControl := None; firstPoint := None |}
                   1 2 _ _)); [reflexivity | repeat constructor].
Defined.

(** ** The comparison of [CloseIfOpen] *)

Lemma every_eq_pointwise (a1 : list float) :
  forall (a2 pre : list float),
    List.length a1 = List.length a2 ->
    (every_eq a1 (List.length pre) (pre ++ a2) = true
     <-> Forall2 (fun v w => strict_eq v w = true) a1 a2).
Proof.
  induction a1 as [|v tl IH]; intros a2 pre Hlen.
  - destruct a2; [|discriminate]. split; [constructor | reflexivity].
  - destruct a2 as [|w tl2]; [discriminate|]. cbn [every_eq]. unfold get.
    rewrite nth_error_app2, Nat.sub_diag by apply Nat.le_refl. cbn [nth_error].
    specialize (IH tl2 (pre ++ [w])%list).
    rewrite length_app, <- app_assoc in IH. cbn [List.length app] in IH.
    rewrite Nat.add_1_r in IH. injection Hlen as Hlen. specialize (IH Hlen).
    split.
    + intros H. apply andb_prop in H. destruct H as [Hv Htl].
      constructor; [exact Hv | apply IH; exact Htl].
    + intros H. inversion H; subst. apply andb_true_intro. split; [assumption|].
      apply IH. assumption.
Qed.

Lemma isEqual_Forall2 (a1 a2 : list float) :
  isEqual a1 a2 = true <-> Forall2 (fun v w => strict_eq v w = true) a1 a2.
Proof.
  unfold isEqual. split.
  - intros H. apply andb_prop in H. destruct H as [Hlen H]. apply Nat.eqb_eq in Hlen.
    apply (every_eq_pointwise a1 a2 [] Hlen). exact H.
  - intros H. pose proof (Forall2_length H) as Hlen.
    apply andb_true_intro. split; [apply Nat.eqb_eq; exact Hlen|].
    apply (every_eq_pointwise a1 a2 [] Hlen). exact H.
Qed.

Lemma Forall2_diagonal (a : list float) :
  Forall2 (fun v w => strict_eq v w = true) a a <-> Forall (fun v => is_nan v = false) a.
Proof.
  induction a as [|v tl IH].
  - split; constructor.
  - split; intros H; inversion H; subst; constructor;
      try (apply IH; assumption); unfold strict_eq, is_nan in *.
    + apply negb_false_iff. assumption.
    + apply negb_false_iff. assumption.
Qed.

(** [isEqual] holds exactly for two arrays of the same length whose elements
    are [===] one by one; an array is equal to itself exactly when it holds
    no [NaN], so a subpath whose start has a [NaN] coordinate is never taken
    as closed. *)
Theorem isEqual_is_pointwise :
  forall a1 a2 : list float,
    (isEqual a1 a2 = true <-> Forall2 (fun v w => strict_eq v w = true) a1 a2)
    /\ (isEqual a1 a1 = true <-> Forall (fun v => is_nan v = false) a1).
Proof.
  intros a1 a2. split; [apply isEqual_Forall2|].
  rewrite isEqual_Forall2. apply Forall2_diagonal.
Qed.

(** ** A current point with a single number *)

Lemma add_nan_r (x : float) : (x + nan)%float = nan.
Proof.
  apply Prim2SF_inj. rewrite add_spec. change (Prim2SF nan) with S754_nan.
  unfold SF64add, SFadd. destruct (Prim2SF x); reflexivity.
Qed.

Lemma mapi_from_without_y (px : float) (arr : list float) :
  forall idx : nat,
    (idx mod 2 = 0 ->
     mapi_from (fun val i => (val + ToNumber (get [px] (i mod 2)))%float) idx arr
     = add_point_without_y px arr) /\
    (idx mod 2 = 1 ->
     mapi_from (fun val i => (val + ToNumber (get [px] (i mod 2)))%float) idx arr
     = match arr with
       | [] => []
       | _ :: tl => nan :: add_point_without_y px tl
       end).
Proof.
  induction arr as [|v tl IH]; intros idx.
  - split; reflexivity.
  - destruct (IH (S idx)) as [IHeven IHodd].
    split; intros Hidx; cbn [mapi_from]; rewrite Hidx; cbn [get nth_error ToNumber].
    + rewrite IHodd by (apply mod2_succ; exact Hidx). destruct tl; reflexivity.
    + rewrite IHeven by (apply mod2_succ; exact Hidx). rewrite add_nan_r. reflexivity.
Qed.

(** When [lastPoint] holds a single number, as it does after a segment that
    ended on a lone value (["L 5"], ["H 0"]), a relative segment adds it to
    the even-indexed values and turns every odd-indexed value into [NaN]:
    [lastPoint[1]] is [undefined]. *)
Theorem relative_after_single_number :
  forall (cmd : DrawCommand) (st : State) (px : float),
    lastPoint st = [px] ->
    toAbsolute cmd st
    = Ok ({| commandChar := toUpperCase (commandChar cmd);
             coords := add_point_without_y px (coords cmd) |}, st).
Proof.
  intros cmd st px Hlast. unfold toAbsolute, mapi. rewrite Hlast.
  destruct (mapi_from_without_y px (coords cmd) 0) as [H _].
  rewrite H by reflexivity. reflexivity.
Qed.

Lemma relative_after_single_number_witness :
  lastPoint {| lastPoint := [5%float]; lastControl := None; firstPoint := None |} = [5%float]
  /\ toAbsolute {| commandChar := "l"; coords := [1; 2; 3; 4]%float |}
       {| lastPoint := [5%float]; lastControl := None; firstPoint := None |}
     = Ok ({| commandChar := "L"; coords := [(1 + 5)%float; nan; (3 + 5)%float; nan] |},
           {| lastPoint := [5%float]; lastControl := None; firstPoint := None |}).
Proof.
  split; [reflexivity|].
  apply (relative_after_single_number {| commandChar := "l"; coords := [1; 2; 3; 4]%float |}
           {| lastPoint := [5%float]; lastControl := None; firstPoint := None |} 5).
  reflexivity.
Defined.

(** ** The inputs the loop gets through *)

Lemma step_fails_flags (segment : string) (st : State) :
  step_fails segment st
  = negb (supported (getCommand segment)
          && (if is_close (getCommand segment) then is_set (firstPoint st)
              else has_number segment
                   && (if is_smooth (getCommand segment)
                       then is_set (lastControl st) else true))).
Proof.
  unfold step_fails, has_number, is_set.
  destruct (supported (getCommand segment)), (is_close (getCommand segment)),
    (firstPoint st), (match_g coordsRegex_at segment), (is_smooth (getCommand segment)),
    (lastControl st); reflexivity.
Qed.

Lemma mapM_smooth_keeps_control_set (cmds : list DrawCommand) :
  forall (st st' : State) (commands : list DrawCommand),
    is_set (lastControl st) = true ->
    mapM smooth_stage cmds st = Ok (commands, st') ->
    is_set (lastControl st') = true.
Proof.
  induction cmds as [|cmd tl IH]; intros st st' commands Hset.
  - cbn [mapM ret]. intros [= _ <-]. exact Hset.
  - cbn [mapM]. unfold bind at 1.
    destruct (smooth_stage cmd st) as [[cmd' st1]|e] eqn:Hstage; [|discriminate].
    unfold bind.
    destruct (mapM smooth_stage tl st1) as [[cmds' st2]|e] eqn:Hrest; [|discriminate].
    cbn [ret]. intros [= _ <-]. apply (IH st1 st2 cmds'); [|exact Hrest].
    unfold smooth_stage, pipe, bind, prependReflexedControlPoint in Hstage.
    destruct (lastControl st); [|discriminate Hset].
    cbn [storeLastPoint storeLastControl] in Hstage. injection Hstage as _ <-. reflexivity.
Qed.

Lemma smooth_pipelines_keep_control_set (cmd : DrawCommand) (st st' : State)
      (commands : list DrawCommand) :
  is_set (lastControl st) = true ->
  (Pipeline.T cmd st = Ok (commands, st') -> is_set (lastControl st') = true)
  /\ (Pipeline.t cmd st = Ok (commands, st') -> is_set (lastControl st') = true).
Proof.
  intros Hset.
  unfold Pipeline.t, Pipeline.T, pipe, bind, toAbsolute, splitArgsSequence, ret.
  split; apply mapM_smooth_keeps_control_set; exact Hset.
Qed.

Ltac sets_entry Hentry :=
  cbv [is_move is_curve is_smooth String.eqb Ascii.eqb Bool.eqb orb];
  first
    [ apply CloseIfOpen_keeps in Hentry; repeat split; intros; discriminate
    | apply init_returns in Hentry; destruct Hentry as [arr Hentry];
      first
        [ split; [intros; discriminate|]; split; [intros; discriminate|];
          intros _ Hset;
          first
            [ exact (proj1 (smooth_pipelines_keep_control_set _ _ _ _ Hset) Hentry)
            | exact (proj2 (smooth_pipelines_keep_control_set _ _ _ _ Hset) Hentry) ]
        | unfold Pipeline.v, Pipeline.q, Pipeline.m, Pipeline.l, Pipeline.V, Pipeline.Q,
            Pipeline.M, Pipeline.L, pipe, bind, toLine, storeFirstPoint, storeLastPoint,
            storeLastControl, splitArgsSequence, fixMSequence, toAbsolute, ret in Hentry;
          cbn [commandChar coords test_HV Ascii.eqb Bool.eqb orb] in Hentry;
          try match type of Hentry with
              | context [fold_left ?f ?l ?a] => destruct (fold_left f l a)
              end;
          injection Hentry as _ <-;
          repeat split; intros; first [reflexivity | discriminate] ] ].

Lemma entry_sets (c segment : string) (st st' : State) (commands : list DrawCommand)
      (entry : string -> string -> Eff (list DrawCommand)) :
  Pipeline.parse c = Some entry ->
  entry c segment st = Ok (commands, st') ->
  (is_move c = true -> is_set (firstPoint st') = true)
  /\ (is_curve c = true -> is_set (lastControl st') = true)
  /\ (is_smooth c = true -> is_set (lastControl st) = true ->
      is_set (lastControl st') = true).
Proof.
  intros Hparse Hentry. unfold Pipeline.parse in Hparse.
  repeat match type of Hparse with
         | context [String.eqb c ?k] =>
             destruct (String.eqb_spec c k) as [-> | _];
             [ injection Hparse as <-; solve [sets_entry Hentry] |]
         end.
  discriminate.
Qed.

(** The two flags after a segment that returns. *)
Lemma segment_step_flags (segment : string) (st st' : State) (graphics graphics' : Graphics) :
  lastPoint st <> [] ->
  segment_step segment st graphics = (graphics', Ok st') ->
  is_set (firstPoint st') = is_set (firstPoint st) || is_move (getCommand segment)
  /\ is_set (lastControl st') = is_set (lastControl st) || is_curve (getCommand segment).
Proof.
  intros Hlast Hstep.
  assert (Hok : step_fails segment st = false).
  { destruct (step_fails segment st) eqn:Hfails; [|reflexivity].
    destruct (segment_step_outcome segment st graphics Hlast) as [Hfail _].
    rewrite (Hfail Hfails) in Hstep. discriminate. }
  rewrite step_fails_flags in Hok. apply negb_false_iff in Hok.
  apply andb_prop in Hok. destruct Hok as [_ Hguard].
  destruct (segment_step_returns _ _ _ _ _ Hstep) as (entry & commands & Hparse & Hentry).
  destruct (entry_keeps _ segment st st' commands entry Hparse Hentry) as [Hkf Hkc].
  destruct (entry_sets _ segment st st' commands entry Hparse Hentry) as (Hsf & Hsc & Hss).
  split.
  - destruct (is_move (getCommand segment)).
    + rewrite (Hsf eq_refl), orb_true_r. reflexivity.
    + rewrite (Hkf eq_refl), orb_false_r. reflexivity.
  - destruct (is_curve (getCommand segment)).
    + rewrite (Hsc eq_refl), orb_true_r. reflexivity.
    + rewrite orb_false_r. destruct (is_smooth (getCommand segment)) eqn:Hsmooth.
      * assert (Hset : is_set (lastControl st) = true).
        { destruct (is_close (getCommand segment)) eqn:Hclose.
          - unfold is_close, is_smooth in *.
            repeat match goal with
                   | H : context [String.eqb ?a ?b] |- _ =>
                       destruct (String.eqb_spec a b); try discriminate
                   end; congruence.
          - apply andb_prop in Hguard. apply Hguard. }
        rewrite (Hss eq_refl Hset). symmetry. exact Hset.
      * rewrite (Hkc eq_refl eq_refl). reflexivity.
Qed.

Lemma forEach_segment_accepted (segments : list string) :
  forall (st : State) (graphics : Graphics),
    bounded_state st ->
    (snd (forEach_segment segments st graphics) = Normal
     <-> accepted (is_set (firstPoint st)) (is_set (lastControl st)) segments = true).
Proof.
  induction segments as [|segment tl IH]; intros st graphics Hst.
  - split; reflexivity.
  - assert (Hlast : lastPoint st <> []).
    { destruct Hst as [Hlast _]. destruct (lastPoint st); [cbn in Hlast; lia | discriminate]. }
    cbn [forEach_segment accepted].
    destruct (segment_step_outcome segment st graphics Hlast) as [Hfail Hok].
    pose proof (step_fails_flags segment st) as Hflags.
    destruct (step_fails segment st).
    + rewrite (Hfail eq_refl). cbn [snd].
      symmetry in Hflags. apply negb_true_iff in Hflags. rewrite Hflags. cbn [andb].
      split; discriminate.
    + destruct (Hok eq_refl) as (calls & st' & Hstep). rewrite Hstep.
      symmetry in Hflags. apply negb_false_iff in Hflags. rewrite Hflags. cbn [andb].
      destruct (segment_step_flags _ _ _ _ _ Hlast Hstep) as [<- <-].
      apply IH. exact (segment_step_bounded _ _ _ _ _ Hst Hstep).
Qed.

(** On an input whose segments are all exact, the loop returns normally
    exactly when the input has a segment and its segments are all accepted:
    every letter has an entry in [parse]; every [Z] or [z] comes after an
    [M] or [m]; every other segment holds a number; every [T], [t], [S],
    [s] comes after a [Q], [q], [C] or [c].  The hypothesis keeps [chunk] on
    lists that its size divides. *)
Theorem run_returns_exactly_when_accepted :
  forall (d : string) (graphics : Graphics),
    exact_input d = true ->
    (snd (run d graphics) = Normal <-> parses d = true).
Proof.
  intros d graphics _. unfold run, match_g, parses. fold (segments_of d).
  destruct (segments_of d) as [|segment tl].
  - split; discriminate.
  - apply (forEach_segment_accepted (segment :: tl) initial graphics initial_bounded).
Qed.

Lemma run_returns_exactly_when_accepted_witness :
  exact_input "M 0 5 L 1 2 q 1 2 3 4 t 5 6 z" = true
  /\ exact_input "M 0 5 T 1 2" = true
  /\ snd (run "M 0 5 L 1 2 q 1 2 3 4 t 5 6 z" []) = Normal
  /\ parses "M 0 5 T 1 2" = false.
Proof.
  assert (H1 : exact_input "M 0 5 L 1 2 q 1 2 3 4 t 5 6 z" = true)
    by (vm_compute; reflexivity).
  assert (H2 : exact_input "M 0 5 T 1 2" = true) by (vm_compute; reflexivity).
  split; [exact H1|]. split; [exact H2|]. split.
  - apply (proj2 (run_returns_exactly_when_accepted
                    "M 0 5 L 1 2 q 1 2 3 4 t 5 6 z" [] H1)).
    vm_compute. reflexivity.
  - destruct (parses "M 0 5 T 1 2") eqn:Hp; [|reflexivity].
    pose proof (proj2 (run_returns_exactly_when_accepted "M 0 5 T 1 2" [] H2) Hp) as Hn.
    vm_compute in Hn. discriminate Hn.
Defined.

(** ** Closing twice *)

Lemma close_step (segment : string) (st : State) (sx sy px py : float)
      (graphics : Graphics) :
  is_close (getCommand segment) = true ->
  firstPoint st = Some [sx; sy] ->
  lastPoint st = [px; py] ->
  segment_step segment st graphics
  = (if strict_eq sx px && strict_eq sy py
     then (graphics, Ok st)
     else ((graphics ++ [mkCall lineTo [sx; sy]])%list,
           Ok {| lastPoint := [sx; sy];
                 lastControl := lastControl st;
                 firstPoint := Some [sx; sy] |})).
Proof.
  intros Hc Hfirst Hlast. unfold segment_step.
  assert (Hparse : Pipeline.parse (getCommand segment) = Some Pipeline.CloseIfOpen).
  { unfold is_close in Hc. apply orb_prop in Hc.
    destruct Hc as [Hc | Hc]; apply String.eqb_eq in Hc; rewrite Hc; reflexivity. }
  rewrite Hparse. unfold Pipeline.CloseIfOpen. rewrite Hfirst, Hlast.
  unfold isEqual. cbn [List.length Nat.eqb every_eq get nth_error andb].
  rewrite andb_true_r.
  destruct (strict_eq sx px && strict_eq sy py); cbn [negb]; [reflexivity|].
  unfold Pipeline.Z, Pipeline.L, pipe, bind, lineToFirstPoint, storeLastPoint,
    splitArgsSequence, ret.
  rewrite Hfirst.
  cbn [commandChar coords numbOfArgsByCommand String.eqb Ascii.eqb Bool.eqb
       lastControl firstPoint].
  rewrite Hfirst. reflexivity.
Qed.

(** A close command right after a close command emits nothing and changes
    nothing, provided the start of the subpath holds no [NaN]: the first one
    has brought the current point onto it. *)
Theorem second_close_is_silent :
  forall (segment1 segment2 : string) (st : State) (sx sy px py : float)
         (graphics : Graphics),
    is_close (getCommand segment1) = true ->
    is_close (getCommand segment2) = true ->
    firstPoint st = Some [sx; sy] ->
    lastPoint st = [px; py] ->
    is_nan sx = false ->
    is_nan sy = false ->
    exists (graphics' : Graphics) (st' : State),
      segment_step segment1 st graphics = (graphics', Ok st')
      /\ segment_step segment2 st' graphics' = (graphics', Ok st').
Proof.
  intros segment1 segment2 st sx sy px py graphics H1 H2 Hfirst Hlast Hsx Hsy.
  rewrite (close_step segment1 st sx sy px py graphics H1 Hfirst Hlast).
  destruct (strict_eq sx px && strict_eq sy py) eqn:Heq.
  - exists graphics, st. split; [reflexivity|].
    rewrite (close_step segment2 st sx sy px py graphics H2 Hfirst Hlast), Heq. reflexivity.
  - eexists _, _. split; [reflexivity|].
    rewrite (close_step segment2
               {| lastPoint := [sx; sy]; lastControl := lastControl st;
                  firstPoint := Some [sx; sy] |} sx sy sx sy _ H2 eq_refl eq_refl).
    unfold is_nan in Hsx, Hsy. apply negb_false_iff in Hsx, Hsy.
    unfold strict_eq. rewrite Hsx, Hsy. reflexivity.
Qed.

Lemma second_close_is_silent_witness :
  is_close (getCommand "Z") = true
  /\ is_close (getCommand "z") = true
  /\ firstPoint {| lastPoint := [2; 2]%float; lastControl := None;
                   firstPoint := Some [1; 1]%float |} = Some [1; 1]%float
  /\ lastPoint {| lastPoint := [2; 2]%float; lastControl := None;
                  firstPoint := Some [1; 1]%float |} = [2; 2]%float
  /\ is_nan 1 = false
  /\ exists (graphics' : Graphics) (st' : State),
      segment_step "Z" {| lastPoint := [2; 2]%float; lastControl := None;
                          firstPoint := Some [1; 1]%float |} []
      = (graphics', Ok st')
      /\ segment_step "z" st' graphics' = (graphics', Ok st').
Proof.
  split; [reflexivity|]. split; [reflexivity|]. split; [reflexivity|].
  split; [reflexivity|]. split; [reflexivity|].
  apply (second_close_is_silent "Z" "z"
           {| lastPoint := [2; 2]%float; lastControl := None;
              firstPoint := Some [1; 1]%float |} 1 1 2 2 []); reflexivity.
Defined.

(** ** Absolute horizontal and vertical lines *)

Lemma absolute_line_nonzero_witness :
  lastPoint {| lastPoint := [0; 5]%float; lastControl := None; firstPoint := None |}
  = [0; 5]%float
  /\ Forall (fun arg => ToBoolean arg = true) [10; 20]%float
  /\ exists st',
      Pipeline.V {| commandChar := "H"; coords := [10; 20]%float |}
        {| lastPoint := [0; 5]%float; lastControl := None; firstPoint := None |}
      = Ok (map (fun arg => {| commandChar := "L"; coords := [arg; 5%float] |})
                [10; 20]%float, st').
Proof.
  split; [reflexivity|]. split; [repeat constructor|].
  refine (proj1 (absolute_line_nonzero [10; 20]%float
                   {| lastPoint := [0; 5]%float; lastControl := None; firstPoint := None |}
                   0 5 _ _)); [reflexivity | repeat constructor].
Defined.
